(** * Control-flow-graph builder of [cfg_visualization.py]

    A shallow embedding of the [CFGBuilder] class (an [ast.NodeVisitor]
    filling a [networkx.DiGraph]) and of the metrics computed from the
    finished graph, followed by the properties of the builder. *)

From stdpp Require Import gmap strings list fin_maps pretty.
From Stdlib Require Import ZArith.


(** ** The graph: [networkx.DiGraph]

    A [DiGraph] keeps a dict of nodes (id to attribute dict) and, per
    ordered pair of nodes, at most one edge with its attribute dict.  The
    builder only ever stores the [label] attribute on an edge, so an edge
    carries its label.  Node ids are the strings [node_<n>]. *)

Record DiGraph := mkDiGraph {
  nodes : gmap string (gmap string string);
  edges : gmap (string * string) string
}.

Definition empty_graph : DiGraph := mkDiGraph ∅ ∅.

(** [G.add_node(n, **attr)]: a new node gets the attributes, a node that
    exists has its attribute dict updated with them. *)
Definition graph_add_node (n : string) (attr : gmap string string)
    (g : DiGraph) : DiGraph :=
  mkDiGraph (<[n := attr ∪ default ∅ (nodes g !! n)]> (nodes g)) (edges g).

(** An endpoint of a new edge that is not a node yet becomes one, with an
    empty attribute dict. *)
Definition touch_node (n : string)
    (ns : gmap string (gmap string string)) : gmap string (gmap string string) :=
  match ns !! n with
  | Some _ => ns
  | None => <[n := ∅]> ns
  end.

(** [G.add_edge(u, v, label=l)]: both endpoints are added when missing;
    the edge [(u, v)] is created, or, when it exists, its label is
    overwritten. *)
Definition graph_add_edge (u v l : string) (g : DiGraph) : DiGraph :=
  mkDiGraph (touch_node v (touch_node u (nodes g))) (<[(u, v) := l]> (edges g)).

Definition number_of_nodes (g : DiGraph) : nat := size (nodes g).
Definition number_of_edges (g : DiGraph) : nat := size (edges g).

Definition out_edges (n : string) (g : DiGraph) : gmap (string * string) string :=
  filter (λ e, e.1.1 = n) (edges g).
Definition in_edges (n : string) (g : DiGraph) : gmap (string * string) string :=
  filter (λ e, e.1.2 = n) (edges g).

Definition out_degree (g : DiGraph) (n : string) : nat := size (out_edges n g).
Definition in_degree (g : DiGraph) (n : string) : nat := size (in_edges n g).

(** ** The syntax tree

    What the visitor reads of an [ast] node: its class, the text
    [ast.unparse] gives for it (for [If] and [While], of its test), and its
    children.  [Other] is a node of any class the builder has no
    [visit_] method for (statements such as [Pass], [For], [FunctionDef],
    and every expression node); [children] are its child nodes in the
    order of [ast.iter_fields]. *)

#[local] Unset Elimination Schemes.
Inductive ast_node : Type :=
  | Assign (text : string)
  | Expr (text : string)
  | If (test : string) (body orelse : list ast_node)
  | While (test : string) (body orelse : list ast_node)
  | Other (cls text : string) (children : list ast_node).
#[local] Set Elimination Schemes.

(** ** The builder *)

Record CFGBuilder := mkCFGBuilder {
  graph : DiGraph;
  counter : nat;
  last_nodes : list string
}.

(** [__init__] *)
Definition init : CFGBuilder := mkCFGBuilder empty_graph 0 [].

Definition node_id (n : nat) : string := "node_" +:+ pretty n.

Definition node_attr (label shape color : string) : gmap string string :=
  <["label" := label]> (<["shape" := shape]> (<["fillcolor" := color]>
    (<["style" := "filled"]> ∅))).

Definition new_node (label shape color : string) (self : CFGBuilder)
    : string * CFGBuilder :=
  let c := S (counter self) in
  let id := node_id c in
  (id, mkCFGBuilder (graph_add_node id (node_attr label shape color) (graph self))
         c (last_nodes self)).

Definition add_edge (source target label : string) (self : CFGBuilder)
    : CFGBuilder :=
  mkCFGBuilder (graph_add_edge source target label (graph self))
    (counter self) (last_nodes self).

Definition set_last_nodes (l : list string) (self : CFGBuilder) : CFGBuilder :=
  mkCFGBuilder (graph self) (counter self) l.

(** [for prev in srcs: self.add_edge(prev, target, label)] *)
Definition add_edges_from (srcs : list string) (target label : string)
    (self : CFGBuilder) : CFGBuilder :=
  foldl (λ b prev, add_edge prev target label b) self srcs.

(** Every [visit_] method starts alike: a new node, and an edge to it
    from each node of [last_nodes]. *)
Definition attach (label shape color : string) (self : CFGBuilder)
    : string * CFGBuilder :=
  let '(curr, b) := new_node label shape color self in
  (curr, add_edges_from (last_nodes b) curr "" b).

(** [visit_Assign] and [visit_Expr] have the same body. *)
Definition visit_simple (text : string) (self : CFGBuilder) : CFGBuilder :=
  let '(curr, b) := attach text "rect" "#ffffff" self in
  set_last_nodes [curr] b.

(** [NodeVisitor.visit] dispatches on the class of the node to
    [visit_Assign], [visit_Expr], [visit_If], [visit_While], and for every
    other class to [generic_visit], which visits the children in order. *)
Fixpoint visit (n : ast_node) (self : CFGBuilder) : CFGBuilder :=
  match n with
  | Assign text => visit_simple text self
  | Expr text => visit_simple text self
  | If test body orelse =>
      let '(cond, b) := attach ("if " +:+ test +:+ ":") "diamond" "#AED6F1" self in
      let b := set_last_nodes [cond] b in
      let b := foldl (λ b child, visit child b) b body in
      let if_exits := last_nodes b in
      let b := set_last_nodes [cond] b in
      match orelse with
      | [] => set_last_nodes (if_exits ++ [cond]) b
      | _ :: _ =>
          let b := foldl (λ b child, visit child b) b orelse in
          let else_exits := last_nodes b in
          set_last_nodes (if_exits ++ else_exits) b
      end
  | While test body _ =>
      let '(cond, b) := attach ("while " +:+ test +:+ ":") "diamond" "#F9E79F" self in
      let b := set_last_nodes [cond] b in
      let b := foldl (λ b child, visit child b) b body in
      let b := add_edges_from (last_nodes b) cond "Loop" b in
      set_last_nodes [cond] b
  | Other _ _ children => foldl (λ b child, visit child b) self children
  end.

Definition visit_all (l : list ast_node) (self : CFGBuilder) : CFGBuilder :=
  foldl (λ b child, visit child b) self l.

(** ** [build]

    [ast.parse] is the interpreter's; it either returns the module, of
    which [build] reads the [body], or raises. *)

Inductive exception : Type :=
  | SyntaxError (msg : string)
  | OtherException (cls msg : string).

Inductive outcome (A : Type) : Type :=
  | Returned (a : A)
  | Raised (e : exception).
Arguments Returned {A} a.
Arguments Raised {A} e.

(** The part of [build] after the parse. *)
Definition build_tree (body : list ast_node) (self : CFGBuilder) : CFGBuilder :=
  let '(start, b) := new_node "START" "ellipse" "#DAF7A6" self in
  let b := set_last_nodes [start] b in
  let b := visit_all body b in
  let '(stop, b) := new_node "STOP" "ellipse" "#FFC300" b in
  add_edges_from (last_nodes b) stop "" b.

Section Build.
Variable parse : string → outcome (list ast_node).

Definition build (self : CFGBuilder) (code : string)
    : CFGBuilder * outcome (option DiGraph * option string) :=
  match parse code with
  | Raised (SyntaxError msg) =>
      (self, Returned (None, Some ("Syntax Error: " +:+ msg)))
  | Raised e => (self, Raised e)
  | Returned body =>
      let b := build_tree body self in
      (b, Returned (Some (graph b), None))
  end.
End Build.

(** ** Metrics, as the page computes them from the returned graph *)

Definition predicates (g : DiGraph) : nat :=
  size (filter (λ kv, 1 < out_degree g kv.1) (nodes g)).

Definition cyclomatic_complexity (g : DiGraph) : Z :=
  Z.of_nat (number_of_edges g) - Z.of_nat (number_of_nodes g) + 2.

(** ** Intermediate states of the visit methods *)

(** The id the next [new_node] gives: that of the node a visit starting on
    [self] makes first (the predicate node, for [visit_If] and
    [visit_While]). *)
Definition cond_id (self : CFGBuilder) : string := node_id (S (counter self)).

(** The builder when [visit_If] starts on the true branch. *)
Definition if_entry (test : string) (self : CFGBuilder) : CFGBuilder :=
  let '(cond, b) := attach ("if " +:+ test +:+ ":") "diamond" "#AED6F1" self in
  set_last_nodes [cond] b.

(** The builder when [visit_If] starts on the false branch. *)
Definition orelse_entry (test : string) (body : list ast_node)
    (self : CFGBuilder) : CFGBuilder :=
  set_last_nodes [cond_id self] (visit_all body (if_entry test self)).

(** The builder when [visit_While] starts on the loop body. *)
Definition while_entry (test : string) (self : CFGBuilder) : CFGBuilder :=
  let '(cond, b) := attach ("while " +:+ test +:+ ":") "diamond" "#F9E79F" self in
  set_last_nodes [cond] b.

(** The builder [build] hands to the first statement. *)
Definition start_state (self : CFGBuilder) : CFGBuilder :=
  let '(start, b) := new_node "START" "ellipse" "#DAF7A6" self in
  set_last_nodes [start] b.

(** ** Invariants *)

Definition known (b : CFGBuilder) (id : string) : Prop :=
  is_Some (nodes (graph b) !! id).

(** Every node was made by [new_node], edges join nodes, and the frontier
    holds nodes. *)
Record wf (b : CFGBuilder) : Prop := mk_wf {
  wf_nodes : ∀ id, known b id → ∃ k, 1 ≤ k ≤ counter b ∧ id = node_id k;
  wf_edges : ∀ u v, is_Some (edges (graph b) !! (u, v)) → known b u ∧ known b v;
  wf_last : Forall (known b) (last_nodes b)
}.

(** [old_id b v]: [v] is not the id of a node made after [b]. *)
Definition old_id (b : CFGBuilder) (v : string) : Prop :=
  ∀ k, counter b < k → v ≠ node_id k.

(** What visiting from [b] to [b'] leaves alone. *)
Record extends (b b' : CFGBuilder) : Prop := mk_extends {
  ext_counter : counter b ≤ counter b';
  ext_edges : ∀ u v, old_id b v →
    edges (graph b') !! (u, v) = edges (graph b) !! (u, v);
  ext_nodes : ∀ id a, old_id b id →
    nodes (graph b) !! id = Some a → nodes (graph b') !! id = Some a;
  ext_known : ∀ id, known b id → known b' id;
  ext_shape : ∀ id a, nodes (graph b') !! id = Some a →
    a !! "shape" = Some "ellipse" → nodes (graph b) !! id = Some a
}.

(** ** The sentinels

    A sentinel is told from a statement's node by its shape: statements
    are drawn as [rect] or [diamond], whatever their text. *)

Definition is_sentinel (label : string) (g : DiGraph) (id : string) : Prop :=
  ∃ a, nodes g !! id = Some a ∧
       a !! "label" = Some label ∧ a !! "shape" = Some "ellipse".

(** The edges labelled ["Loop"]. *)
Definition loop_edges (g : DiGraph) : gmap (string * string) string :=
  filter (λ e, e.2 = "Loop") (edges g).

(** [handled_inside n]: [n] or a node below it, reached through nodes of
    other classes only, has a [visit_] method. *)
Fixpoint handled_inside (n : ast_node) : bool :=
  match n with
  | Assign _ | Expr _ | If _ _ _ | While _ _ _ => true
  | Other _ _ children => existsb handled_inside children
  end.

(** ** Sample programs *)

(** [while x > 0: x = x - 1] *)
Definition while_example : list ast_node :=
  [While "x > 0" [Assign "x = x - 1"] []].

(** [pass] *)
Definition pass_stmt : ast_node := Other "Pass" "pass" [].

(** [for i in xs: x = 1] *)
Definition for_example : ast_node :=
  Other "For" "for i in xs:
    x = 1"
    [Other "Name" "i" [Other "Store" "" []];
     Other "Name" "xs" [Other "Load" "" []];
     Assign "x = 1"].

(** [if a: pass] followed by [x = 1] *)
Definition if_pass_example : list ast_node :=
  [If "a" [pass_stmt] []; Assign "x = 1"].

(** [while a:] with the body [if b: x = 1] and [else: y = 2] *)
Definition while_if_example : list ast_node :=
  [While "a" [If "b" [Assign "x = 1"] [Assign "y = 2"]] []].

(** The same loop inside [if c:], after [z = 0] *)
Definition nested_loop_example : list ast_node :=
  [Assign "z = 0"; If "c" while_if_example []].

(** ** The calls of [visit] during a build

    [calls l b n c]: while the statements [l] are visited in turn from the
    builder [b], [visit n] is called on the builder [c], for a statement of
    [l] or one nested in it. *)

Inductive calls : list ast_node → CFGBuilder → ast_node → CFGBuilder → Prop :=
  | calls_here n l b : calls (n :: l) b n b
  | calls_next n l b m c :
      calls l (visit n b) m c → calls (n :: l) b m c
  | calls_if_body test body orelse l b m c :
      calls body (if_entry test b) m c →
      calls (If test body orelse :: l) b m c
  | calls_if_orelse test body orelse l b m c :
      calls orelse (orelse_entry test body b) m c →
      calls (If test body orelse :: l) b m c
  | calls_while_body test body orelse l b m c :
      calls body (while_entry test b) m c →
      calls (While test body orelse :: l) b m c
  | calls_other cls text children l b m c :
      calls children b m c →
      calls (Other cls text children :: l) b m c.

(** ** Rendering

    The page draws each node with [dot.node(node, label=data['label'],
    shape=data['shape'], fillcolor=data['fillcolor'], style=data['style'])];
    a key that is missing raises [KeyError], here [None]. *)

Definition dot_node_args (data : gmap string string)
    : option (string * string * string * string) :=
  label ← data !! "label";
  shape ← data !! "shape";
  fillcolor ← data !! "fillcolor";
  style ← data !! "style";
  Some (label, shape, fillcolor, style).

(** ** Measures of a program *)

(** The number of [new_node] calls a visit makes; the [orelse] of a
    [While] is never visited. *)
Fixpoint made (n : ast_node) : nat :=
  match n with
  | Assign _ | Expr _ => 1
  | If _ body orelse => S (sum_list (made <$> body) + sum_list (made <$> orelse))
  | While _ body _ => S (sum_list (made <$> body))
  | Other _ _ children => sum_list (made <$> children)
  end.

Definition made_all (l : list ast_node) : nat := sum_list (made <$> l).

(** Assignments and expression statements. *)
Definition straight (n : ast_node) : bool :=
  match n with
  | Assign _ | Expr _ => true
  | _ => false
  end.

(** The attributes of the node a statement with a [visit_] method is
    drawn with. *)
Definition statement_attr (n : ast_node) : option (gmap string string) :=
  match n with
  | Assign text | Expr text => Some (node_attr text "rect" "#ffffff")
  | If test _ _ => Some (node_attr ("if " +:+ test +:+ ":") "diamond" "#AED6F1")
  | While test _ _ => Some (node_attr ("while " +:+ test +:+ ":") "diamond" "#F9E79F")
  | Other _ _ _ => None
  end.

(** ** Paths *)

Inductive reachable (g : DiGraph) (s : string) : string → Prop :=
  | reachable_refl : reachable g s s
  | reachable_step u v :
      reachable g s u → is_Some (edges g !! (u, v)) → reachable g s v.

(** ** Invariants of the graph under construction *)

Definition is_while_attr (a : gmap string string) : Prop :=
  ∃ test, a = node_attr ("while " +:+ test +:+ ":") "diamond" "#F9E79F".

Record tidy (b : CFGBuilder) : Prop := mk_tidy {
  tidy_size : size (nodes (graph b)) = counter b;
  tidy_all : ∀ k, 1 ≤ k ≤ counter b → known b (node_id k);
  tidy_attrs : ∀ id a, nodes (graph b) !! id = Some a →
    ∃ label shape color, a = node_attr label shape color;
  tidy_dir : ∀ u v l, edges (graph b) !! (u, v) = Some l →
    ∃ j k, u = node_id j ∧ v = node_id k ∧
           ((l = "" ∧ j < k) ∨ (l = "Loop" ∧ k ≤ j));
  tidy_loop : ∀ u v, edges (graph b) !! (u, v) = Some "Loop" →
    ∃ a, nodes (graph b) !! v = Some a ∧ is_while_attr a;
  tidy_reach : ∀ id, known b id → reachable (graph b) (node_id 1) id;
  tidy_edges : counter b ≤ S (size (edges (graph b)))
}.

(** The frontier is not empty and holds nodes made as the [m]-th or
    later. *)
Definition front (m : nat) (b : CFGBuilder) : Prop :=
  last_nodes b ≠ [] ∧
  Forall (λ id, ∃ j, m ≤ j ∧ id = node_id j) (last_nodes b).

(** The graph of a sequence of statements without branch: the nodes in
    a row, each joined to the next, the last one being the frontier. *)
Definition chain (b : CFGBuilder) : Prop :=
  1 ≤ counter b ∧ last_nodes b = [node_id (counter b)] ∧
  size (edges (graph b)) = counter b - 1 ∧
  ∀ u v l, edges (graph b) !! (u, v) = Some l →
    l = "" ∧ ∃ j, u = node_id j ∧ v = node_id (S j).

(** ** The page

    What the page does with the pair [graph, error] once [build] has
    returned it: with [if not error] it shows the four metrics of the
    graph, otherwise the error.  [not error] holds for [None] and for the
    empty string; calling [graph.number_of_nodes()] on [None] raises
    [AttributeError].  When [build] raises, the page has no pair to show. *)

Inductive display : Type :=
  | Metrics (n e p : nat) (cc : Z)
  | ErrorBox (msg : string)
  | Uncaught (e : exception).

Definition truthy (error : option string) : bool :=
  match error with
  | Some msg => negb (String.eqb msg "")
  | None => false
  end.

Definition page (result : option DiGraph * option string) : display :=
  let '(graph, error) := result in
  if truthy error then ErrorBox (default "" error)
  else match graph with
       | Some g => Metrics (number_of_nodes g) (number_of_edges g)
                     (predicates g) (cyclomatic_complexity g)
       | None => Uncaught (OtherException "AttributeError"
                   "'NoneType' object has no attribute 'number_of_nodes'")
       end.

(** ** Induction over syntax trees *)

Section ast_node_ind.
Variable P : ast_node → Prop.
Hypothesis HAssign : ∀ text, P (Assign text).
Hypothesis HExpr : ∀ text, P (Expr text).
Hypothesis HIf : ∀ test body orelse,
  Forall P body → Forall P orelse → P (If test body orelse).
Hypothesis HWhile : ∀ test body orelse,
  Forall P body → Forall P orelse → P (While test body orelse).
Hypothesis HOther : ∀ cls text children,
  Forall P children → P (Other cls text children).

Fixpoint ast_node_ind (n : ast_node) : P n :=
  let all := fix all (l : list ast_node) : Forall P l :=
    match l with
    | [] => @List.Forall_nil _ P
    | x :: l' => @List.Forall_cons _ P x l' (ast_node_ind x) (all l')
    end in
  match n with
  | Assign text => HAssign text
  | Expr text => HExpr text
  | If test body orelse => HIf test body orelse (all body) (all orelse)
  | While test body orelse => HWhile test body orelse (all body) (all orelse)
  | Other cls text children => HOther cls text children (all children)
  end.
End ast_node_ind.

(** ** The graph operations *)

Lemma node_id_inj j k : node_id j = node_id k → j = k.
Proof.
  unfold node_id. intros H. apply (inj (String.app "node_")) in H.
  by apply (inj pretty) in H.
Qed.

Lemma touch_node_lookup_Some n ns id a :
  ns !! id = Some a → touch_node n ns !! id = Some a.
Proof.
  intros H. unfold touch_node. destruct (ns !! n) eqn:E; [done|].
  rewrite lookup_insert_ne; [done|]. intros Heq. congruence.
Qed.

Lemma touch_node_known n ns : is_Some (ns !! n) → touch_node n ns = ns.
Proof. intros [a Ha]. unfold touch_node. by rewrite Ha. Qed.

Lemma touch_node_lookup_inv n ns id a :
  touch_node n ns !! id = Some a → ns !! id = Some a ∨ (id = n ∧ a = ∅ ∧ ns !! n = None).
Proof.
  unfold touch_node. destruct (ns !! n) eqn:E; [auto|].
  destruct (decide (n = id)) as [->|Hne].
  - rewrite lookup_insert_eq. intros [= <-]. auto.
  - rewrite lookup_insert_ne by done. auto.
Qed.

Section add_edges_from.
Implicit Types (b : CFGBuilder) (srcs : list string) (t l u v : string).

Lemma add_edges_from_nil t l b : add_edges_from [] t l b = b.
Proof. done. Qed.

Lemma add_edges_from_cons s srcs t l b :
  add_edges_from (s :: srcs) t l b = add_edges_from srcs t l (add_edge s t l b).
Proof. done. Qed.

Lemma add_edges_from_counter srcs t l b :
  counter (add_edges_from srcs t l b) = counter b.
Proof.
  revert b. induction srcs as [|s srcs IH]; intros b; [done|].
  rewrite add_edges_from_cons, IH. done.
Qed.

Lemma add_edges_from_last_nodes srcs t l b :
  last_nodes (add_edges_from srcs t l b) = last_nodes b.
Proof.
  revert b. induction srcs as [|s srcs IH]; intros b; [done|].
  rewrite add_edges_from_cons, IH. done.
Qed.

(** After the loop, the edges into [t] from the sources carry [l]; every
    other pair is as before. *)
Lemma add_edges_from_edges srcs t l b u v :
  edges (graph (add_edges_from srcs t l b)) !! (u, v) =
    if decide (v = t ∧ u ∈ srcs) then Some l else edges (graph b) !! (u, v).
Proof.
  revert b. induction srcs as [|s srcs IH]; intros b.
  - rewrite add_edges_from_nil. case_decide as H; [|done].
    destruct H as [_ H]. by apply elem_of_nil in H.
  - rewrite add_edges_from_cons, IH. simpl.
    destruct (decide (v = t ∧ u ∈ srcs)) as [[-> Hin]|Hn].
    + rewrite decide_True; [done|]. split; [done|]. by apply elem_of_cons; right.
    + destruct (decide ((s, t) = (u, v))) as [[= -> ->]|Hne].
      * rewrite lookup_insert_eq. rewrite decide_True; [done|].
        split; [done|]. by apply elem_of_cons; left.
      * rewrite lookup_insert_ne by done.
        case_decide as H; [|done]. destruct H as [-> H].
        apply elem_of_cons in H as [->|H]; [done|]. by destruct Hn.
Qed.

Lemma add_edges_from_edges_other srcs t l b u v :
  v ≠ t → edges (graph (add_edges_from srcs t l b)) !! (u, v) =
          edges (graph b) !! (u, v).
Proof.
  intros Hne. rewrite add_edges_from_edges.
  rewrite decide_False; [done|]. by intros [? _].
Qed.

Lemma add_edges_from_nodes_Some srcs t l b id a :
  nodes (graph b) !! id = Some a →
  nodes (graph (add_edges_from srcs t l b)) !! id = Some a.
Proof.
  revert b. induction srcs as [|s srcs IH]; intros b H; [done|].
  rewrite add_edges_from_cons. apply IH. simpl.
  by do 2 apply touch_node_lookup_Some.
Qed.

(** The endpoints are nodes already: no node is added. *)
Lemma add_edges_from_nodes srcs t l b :
  is_Some (nodes (graph b) !! t) →
  Forall (λ s, is_Some (nodes (graph b) !! s)) srcs →
  nodes (graph (add_edges_from srcs t l b)) = nodes (graph b).
Proof.
  revert b. induction srcs as [|s srcs IH]; intros b Ht Hs; [done|].
  apply Forall_cons in Hs as [Hs Hs'].
  assert (nodes (graph (add_edge s t l b)) = nodes (graph b)) as E.
  { simpl. rewrite (touch_node_known s) by done. by rewrite touch_node_known. }
  rewrite add_edges_from_cons, IH; rewrite ?E; done.
Qed.
End add_edges_from.

Lemma add_edges_from_nodes_inv srcs t l b id a :
  nodes (graph (add_edges_from srcs t l b)) !! id = Some a →
  nodes (graph b) !! id = Some a ∨ a = ∅.
Proof.
  revert b. induction srcs as [|s srcs IH]; intros b H; [by left|].
  rewrite add_edges_from_cons in H. apply IH in H as [H|H]; [|by right].
  simpl in H. apply touch_node_lookup_inv in H as [H|(_ & -> & _)]; [|by right].
  apply touch_node_lookup_inv in H as [H|(_ & -> & _)]; [by left|by right].
Qed.

(** ** [new_node] and [attach] *)

Section attach.
Implicit Types (b : CFGBuilder) (label shape color : string).

Lemma new_node_fst label shape color b :
  (new_node label shape color b).1 = cond_id b.
Proof. done. Qed.

Lemma new_node_nodes label shape color b :
  nodes (graph (new_node label shape color b).2) =
    <[cond_id b := node_attr label shape color
                     ∪ default ∅ (nodes (graph b) !! cond_id b)]>
      (nodes (graph b)).
Proof. done. Qed.

Lemma new_node_edges label shape color b :
  edges (graph (new_node label shape color b).2) = edges (graph b).
Proof. done. Qed.

Lemma attach_fst label shape color b :
  (attach label shape color b).1 = cond_id b.
Proof. done. Qed.

Lemma attach_counter label shape color b :
  counter (attach label shape color b).2 = S (counter b).
Proof. unfold attach. simpl. by rewrite add_edges_from_counter. Qed.

Lemma attach_last_nodes label shape color b :
  last_nodes (attach label shape color b).2 = last_nodes b.
Proof. unfold attach. simpl. by rewrite add_edges_from_last_nodes. Qed.

Lemma attach_edges label shape color b u v :
  edges (graph (attach label shape color b).2) !! (u, v) =
    if decide (v = cond_id b ∧ u ∈ last_nodes b) then Some ""
    else edges (graph b) !! (u, v).
Proof. unfold attach. simpl. by rewrite add_edges_from_edges. Qed.

Lemma node_attr_shape label shape color (old : gmap string string) :
  (node_attr label shape color ∪ old) !! "shape" = Some shape.
Proof. apply lookup_union_Some_l. done. Qed.

Lemma node_attr_label label shape color (old : gmap string string) :
  (node_attr label shape color ∪ old) !! "label" = Some label.
Proof. apply lookup_union_Some_l. done. Qed.

Lemma old_id_cond b : ¬ old_id b (cond_id b).
Proof. intros H. apply (H (S (counter b))); [lia|done]. Qed.

Lemma old_id_mono b b' v : counter b ≤ counter b' → old_id b v → old_id b' v.
Proof. intros Hle H k Hk. apply H. lia. Qed.
End attach.

(** ** What a visit leaves alone *)

Section extends.
Implicit Types (b : CFGBuilder).

Lemma extends_refl b : extends b b.
Proof. by split. Qed.

Lemma extends_trans b1 b2 b3 : extends b1 b2 → extends b2 b3 → extends b1 b3.
Proof.
  intros [c1 e1 n1 k1 s1] [c2 e2 n2 k2 s2]. split.
  - lia.
  - intros u v Hv. rewrite e2 by (by eapply old_id_mono). by apply e1.
  - intros id a Hid Ha. apply n2; [by eapply old_id_mono|]. by apply n1.
  - auto.
  - intros id a Ha Hs. apply s1; [|done]. by apply s2.
Qed.

Lemma extends_set_last_nodes b b' l :
  extends b b' → extends b (set_last_nodes l b').
Proof. intros [c e n k s]. by split. Qed.

Lemma extends_new_node label shape color b :
  shape ≠ "ellipse" → extends b (new_node label shape color b).2.
Proof.
  intros Hshape. split; simpl.
  - lia.
  - done.
  - intros id a Hid Ha. rewrite lookup_insert_ne; [done|].
    intros <-. by apply old_id_cond in Hid.
  - intros id [a Ha]. unfold known. simpl.
    destruct (decide (node_id (S (counter b)) = id)) as [<-|Hne].
    + rewrite lookup_insert_eq. eauto.
    + rewrite lookup_insert_ne by done. eauto.
  - intros id a.
    destruct (decide (node_id (S (counter b)) = id)) as [<-|Hne].
    + rewrite lookup_insert_eq. intros [= <-].
      rewrite node_attr_shape. congruence.
    + by rewrite lookup_insert_ne by done.
Qed.

(** Edges into a node made after [b] are no concern of [b]. *)
Lemma extends_add_edges b b' srcs t l :
  ¬ old_id b t → extends b b' → extends b (add_edges_from srcs t l b').
Proof.
  intros Ht [c e n k s]. split.
  - by rewrite add_edges_from_counter.
  - intros u v Hv. rewrite add_edges_from_edges_other; [by apply e|].
    intros ->. done.
  - intros id a Hid Ha. apply add_edges_from_nodes_Some. by apply n.
  - intros id Hid. destruct (k id Hid) as [a Ha].
    exists a. by apply add_edges_from_nodes_Some.
  - intros id a Ha Hs. apply add_edges_from_nodes_inv in Ha as [Ha| ->].
    + by apply s.
    + by rewrite lookup_empty in Hs.
Qed.

Lemma extends_attach label shape color b :
  shape ≠ "ellipse" → extends b (attach label shape color b).2.
Proof.
  intros Hshape. unfold attach.
  pose proof (extends_new_node label shape color b Hshape) as H.
  destruct (new_node label shape color b) as [curr b1] eqn:E.
  assert (curr = cond_id b) as -> by (by inversion E).
  simpl in *. apply extends_add_edges; [apply old_id_cond|done].
Qed.
End extends.

(** ** The visit methods, one equation each *)

Section visit_equations.
Implicit Types (b : CFGBuilder) (l body orelse : list ast_node).

Lemma visit_all_nil b : visit_all [] b = b.
Proof. done. Qed.

Lemma visit_all_cons n l b : visit_all (n :: l) b = visit_all l (visit n b).
Proof. done. Qed.

Lemma visit_all_app l1 l2 b :
  visit_all (l1 ++ l2) b = visit_all l2 (visit_all l1 b).
Proof. apply foldl_app. Qed.

Lemma visit_simple_eq text b :
  visit_simple text b =
    set_last_nodes [cond_id b] (attach text "rect" "#ffffff" b).2.
Proof. done. Qed.

Lemma visit_If_eq test body orelse b :
  visit (If test body orelse) b =
    let b1 := visit_all body (if_entry test b) in
    match orelse with
    | [] => set_last_nodes (last_nodes b1 ++ [cond_id b]) b1
    | _ :: _ =>
        let b2 := visit_all orelse (orelse_entry test body b) in
        set_last_nodes (last_nodes b1 ++ last_nodes b2) b2
    end.
Proof. by destruct orelse. Qed.

Lemma visit_While_eq test body orelse b :
  visit (While test body orelse) b =
    let b1 := visit_all body (while_entry test b) in
    set_last_nodes [cond_id b]
      (add_edges_from (last_nodes b1) (cond_id b) "Loop" b1).
Proof. done. Qed.

Lemma visit_Other_eq cls text children b :
  visit (Other cls text children) b = visit_all children b.
Proof. done. Qed.

Lemma if_entry_eq test b :
  if_entry test b =
    set_last_nodes [cond_id b]
      (attach ("if " +:+ test +:+ ":") "diamond" "#AED6F1" b).2.
Proof. done. Qed.

Lemma while_entry_eq test b :
  while_entry test b =
    set_last_nodes [cond_id b]
      (attach ("while " +:+ test +:+ ":") "diamond" "#F9E79F" b).2.
Proof. done. Qed.

Lemma if_entry_counter test b : counter (if_entry test b) = S (counter b).
Proof. rewrite if_entry_eq. simpl. apply attach_counter. Qed.

Lemma while_entry_counter test b : counter (while_entry test b) = S (counter b).
Proof. rewrite while_entry_eq. simpl. apply attach_counter. Qed.

Lemma while_entry_edges test b u v :
  edges (graph (while_entry test b)) !! (u, v) =
    if decide (v = cond_id b ∧ u ∈ last_nodes b) then Some ""
    else edges (graph b) !! (u, v).
Proof. rewrite while_entry_eq. apply attach_edges. Qed.

Lemma extends_if_entry test b : extends b (if_entry test b).
Proof.
  rewrite if_entry_eq. apply extends_set_last_nodes.
  by apply extends_attach.
Qed.

Lemma extends_while_entry test b : extends b (while_entry test b).
Proof.
  rewrite while_entry_eq. apply extends_set_last_nodes.
  by apply extends_attach.
Qed.

Lemma visit_all_extends l b :
  Forall (λ n, ∀ b, extends b (visit n b)) l → extends b (visit_all l b).
Proof.
  intros H. revert b. induction H as [|n l Hn _ IH]; intros b.
  - apply extends_refl.
  - rewrite visit_all_cons. eapply extends_trans; [apply Hn|apply IH].
Qed.

Lemma visit_extends n : ∀ b, extends b (visit n b).
Proof.
  induction n as [text|text|test body orelse IHb IHo
                 |test body orelse IHb _|cls text children IH]
    using ast_node_ind; intros b.
  - rewrite (visit_simple_eq text b : visit (Assign text) b = _).
    apply extends_set_last_nodes. by apply extends_attach.
  - rewrite (visit_simple_eq text b : visit (Expr text) b = _).
    apply extends_set_last_nodes. by apply extends_attach.
  - rewrite visit_If_eq.
    assert (extends b (visit_all body (if_entry test b))) as H1.
    { eapply extends_trans; [apply extends_if_entry|by apply visit_all_extends]. }
    destruct orelse as [|o orelse]; simpl.
    + by apply extends_set_last_nodes.
    + apply extends_set_last_nodes.
      eapply extends_trans; [|apply (visit_all_extends _ _ IHo)].
      by apply extends_set_last_nodes.
  - rewrite visit_While_eq. simpl. apply extends_set_last_nodes.
    apply extends_add_edges; [apply old_id_cond|].
    eapply extends_trans; [apply extends_while_entry|by apply visit_all_extends].
  - rewrite visit_Other_eq. by apply visit_all_extends.
Qed.

Lemma visit_all_extends' l b : extends b (visit_all l b).
Proof. apply visit_all_extends, Forall_forall. intros n _. apply visit_extends. Qed.
End visit_equations.

(** ** Well-formed builders *)

Section wf.
Implicit Types (b : CFGBuilder) (l : list ast_node).

Lemma wf_init : wf init.
Proof.
  split; simpl.
  - intros id [a Ha]. simpl in Ha. by rewrite lookup_empty in Ha.
  - intros u v [a Ha]. simpl in Ha. by rewrite lookup_empty in Ha.
  - constructor.
Qed.

Lemma wf_fresh b : wf b → nodes (graph b) !! cond_id b = None.
Proof.
  intros Hwf. destruct (nodes (graph b) !! cond_id b) eqn:E; [|done].
  destruct (wf_nodes b Hwf (cond_id b)) as (k & Hk & Heq); [by eexists|].
  apply node_id_inj in Heq. lia.
Qed.

Lemma wf_set_last_nodes b ids :
  wf b → Forall (known b) ids → wf (set_last_nodes ids b).
Proof. intros [n e f] H. by split. Qed.

Lemma known_new_node_mono label shape color b id :
  known b id → known (new_node label shape color b).2 id.
Proof.
  intros [a Ha]. unfold known. simpl.
  destruct (decide (node_id (S (counter b)) = id)) as [<-|Hne].
  - rewrite lookup_insert_eq. eauto.
  - rewrite lookup_insert_ne by done. eauto.
Qed.

Lemma wf_new_node label shape color b :
  wf b → wf (new_node label shape color b).2.
Proof.
  intros Hwf.
  pose proof (known_new_node_mono label shape color b) as Hk.
  destruct Hwf as [n e f]. split; simpl.
  - intros id [a Ha]. simpl in Ha.
    destruct (decide (node_id (S (counter b)) = id)) as [<-|Hne].
    + exists (S (counter b)). split; [lia|done].
    + rewrite lookup_insert_ne in Ha by done.
      destruct (n id) as (k & Hk' & ->); [by eexists|].
      exists k. split; [lia|done].
  - intros u v Huv. destruct (e u v Huv). split; by apply Hk.
  - eapply Forall_impl; [exact f|]. exact Hk.
Qed.

Lemma known_new_node label shape color b :
  known (new_node label shape color b).2 (cond_id b).
Proof. unfold known, cond_id. simpl. rewrite lookup_insert_eq. eauto. Qed.

Lemma wf_add_edges b srcs t lbl :
  wf b → known b t → Forall (known b) srcs → wf (add_edges_from srcs t lbl b).
Proof.
  intros [n e f] Ht Hs.
  pose proof (add_edges_from_nodes srcs t lbl b Ht Hs) as Hn.
  assert (∀ id, known (add_edges_from srcs t lbl b) id ↔ known b id) as Hk.
  { intros id. unfold known. by rewrite Hn. }
  split.
  - intros id Hid. apply Hk in Hid. rewrite add_edges_from_counter. auto.
  - intros u v. rewrite add_edges_from_edges, !Hk.
    case_decide as Hd.
    + destruct Hd as [-> Hu]. intros _. split; [|done].
      by eapply Forall_forall in Hs.
    + apply e.
  - rewrite add_edges_from_last_nodes.
    eapply Forall_impl; [exact f|]. intros id. apply Hk.
Qed.

Lemma wf_attach label shape color b :
  wf b → wf (attach label shape color b).2 ∧
         known (attach label shape color b).2 (cond_id b).
Proof.
  intros Hwf. unfold attach.
  pose proof (wf_new_node label shape color b Hwf) as H1.
  pose proof (known_new_node label shape color b) as H2.
  destruct (new_node label shape color b) as [curr b1] eqn:E.
  assert (curr = cond_id b) as -> by (by inversion E).
  simpl in *.
  assert (wf (add_edges_from (last_nodes b1) (cond_id b) "" b1)) as H3.
  { apply wf_add_edges; [done..|]. apply H1. }
  split; [done|]. unfold known.
  rewrite add_edges_from_nodes; [done..|]. apply H1.
Qed.

Lemma wf_if_entry test b :
  wf b → wf (if_entry test b) ∧ known (if_entry test b) (cond_id b).
Proof.
  intros Hwf. rewrite if_entry_eq.
  destruct (wf_attach ("if " +:+ test +:+ ":") "diamond" "#AED6F1" b Hwf) as [H1 H2].
  split; [|done]. apply wf_set_last_nodes; [done|]. by constructor.
Qed.

Lemma wf_while_entry test b :
  wf b → wf (while_entry test b) ∧ known (while_entry test b) (cond_id b).
Proof.
  intros Hwf. rewrite while_entry_eq.
  destruct (wf_attach ("while " +:+ test +:+ ":") "diamond" "#F9E79F" b Hwf) as [H1 H2].
  split; [|done]. apply wf_set_last_nodes; [done|]. by constructor.
Qed.

Lemma wf_visit_all l b :
  Forall (λ n, ∀ b, wf b → wf (visit n b)) l → wf b → wf (visit_all l b).
Proof.
  intros H. revert b. induction H as [|n l Hn _ IH]; intros b Hwf; [done|].
  rewrite visit_all_cons. apply IH, Hn, Hwf.
Qed.

Lemma wf_visit n : ∀ b, wf b → wf (visit n b).
Proof.
  induction n as [text|text|test body orelse IHb IHo
                 |test body orelse IHb _|cls text children IH]
    using ast_node_ind; intros b Hwf.
  - rewrite (visit_simple_eq text b : visit (Assign text) b = _).
    destruct (wf_attach text "rect" "#ffffff" b Hwf) as [H1 H2].
    apply wf_set_last_nodes; [done|]. by constructor.
  - rewrite (visit_simple_eq text b : visit (Expr text) b = _).
    destruct (wf_attach text "rect" "#ffffff" b Hwf) as [H1 H2].
    apply wf_set_last_nodes; [done|]. by constructor.
  - rewrite visit_If_eq.
    destruct (wf_if_entry test b Hwf) as [H1 H2].
    pose proof (wf_visit_all body _ IHb H1) as H3.
    pose proof (visit_all_extends' body (if_entry test b)) as E3.
    pose proof (ext_known _ _ E3 _ H2) as H4.
    destruct orelse as [|o orelse]; simpl.
    + apply wf_set_last_nodes; [done|]. apply Forall_app. split.
      * apply H3.
      * by constructor.
    + assert (wf (orelse_entry test body b)) as H5.
      { apply wf_set_last_nodes; [done|]. by constructor. }
      pose proof (wf_visit_all (o :: orelse) _ IHo H5) as H6.
      pose proof (visit_all_extends' (o :: orelse) (orelse_entry test body b)) as E6.
      apply wf_set_last_nodes; [done|]. apply Forall_app. split.
      * eapply Forall_impl; [apply (wf_last _ H3)|].
        intros id Hid. by apply (ext_known _ _ E6).
      * apply H6.
  - rewrite visit_While_eq. simpl.
    destruct (wf_while_entry test b Hwf) as [H1 H2].
    pose proof (wf_visit_all body _ IHb H1) as H3.
    pose proof (visit_all_extends' body (while_entry test b)) as E3.
    pose proof (ext_known _ _ E3 _ H2) as H4.
    assert (wf (add_edges_from (last_nodes (visit_all body (while_entry test b)))
                  (cond_id b) "Loop" (visit_all body (while_entry test b)))) as H5.
    { apply wf_add_edges; [done..|]. apply H3. }
    apply wf_set_last_nodes; [done|]. constructor; [|done].
    unfold known. rewrite add_edges_from_nodes; [done..|]. apply H3.
  - rewrite visit_Other_eq. by apply wf_visit_all.
Qed.

Lemma wf_visit_all' l b : wf b → wf (visit_all l b).
Proof. apply wf_visit_all, Forall_forall. intros n _. apply wf_visit. Qed.

Lemma wf_start_state : wf (start_state init).
Proof.
  apply wf_set_last_nodes.
  - apply (wf_new_node "START" "ellipse" "#DAF7A6" init wf_init).
  - constructor; [|done]. apply (known_new_node "START" "ellipse" "#DAF7A6" init).
Qed.
End wf.

(** ** [build] *)

Section build_facts.
Implicit Types (b : CFGBuilder) (g : DiGraph) (body : list ast_node).



Lemma build_tree_eq body b :
  build_tree body b =
    let b1 := visit_all body (start_state b) in
    add_edges_from (last_nodes b1) (cond_id b1) ""
      (new_node "STOP" "ellipse" "#FFC300" b1).2.
Proof. done. Qed.

Lemma start_state_nodes :
  nodes (graph (start_state init)) =
    {[ node_id 1 := node_attr "START" "ellipse" "#DAF7A6" ]}.
Proof.
  simpl. rewrite lookup_empty. simpl.
  by rewrite (right_id_L ∅ (∪)), insert_empty.
Qed.

Lemma old_id_start : old_id (start_state init) (node_id 1).
Proof. intros k Hk Heq. apply node_id_inj in Heq. simpl in Hk. lia. Qed.

(** The nodes and edges of the finished graph, from those of the builder
    after the last statement. *)
Lemma build_tree_nodes body :
  let b1 := visit_all body (start_state init) in
  nodes (graph (build_tree body init)) =
    <[cond_id b1 := node_attr "STOP" "ellipse" "#FFC300"]> (nodes (graph b1)).
Proof.
  intros b1. rewrite build_tree_eq. fold b1.
  assert (wf b1) as Hwf by apply wf_visit_all', wf_start_state.
  pose proof (wf_new_node "STOP" "ellipse" "#FFC300" b1 Hwf) as Hwf2.
  rewrite add_edges_from_nodes.
  - rewrite new_node_nodes, (wf_fresh b1 Hwf). simpl.
    by rewrite (right_id_L ∅ (∪)).
  - apply known_new_node.
  - eapply Forall_impl; [apply (wf_last _ Hwf)|].
    intros id Hid. by apply known_new_node_mono.
Qed.

Lemma build_tree_edges body u v :
  let b1 := visit_all body (start_state init) in
  edges (graph (build_tree body init)) !! (u, v) =
    if decide (v = cond_id b1 ∧ u ∈ last_nodes b1) then Some ""
    else edges (graph b1) !! (u, v).
Proof. intros b1. rewrite build_tree_eq. fold b1. by rewrite add_edges_from_edges. Qed.
End build_facts.

Section sentinels.
Implicit Types (body : list ast_node).

Lemma start_node_kept body :
  nodes (graph (visit_all body (start_state init))) !! node_id 1 =
    Some (node_attr "START" "ellipse" "#DAF7A6").
Proof.
  apply (ext_nodes _ _ (visit_all_extends' body (start_state init))).
  - apply old_id_start.
  - rewrite start_state_nodes. apply lookup_singleton_eq.
Qed.

Lemma ellipse_is_start body id a :
  nodes (graph (visit_all body (start_state init))) !! id = Some a →
  a !! "shape" = Some "ellipse" →
  id = node_id 1 ∧ a = node_attr "START" "ellipse" "#DAF7A6".
Proof.
  intros Ha Hs.
  apply (ext_shape _ _ (visit_all_extends' body (start_state init))) in Ha; [|done].
  rewrite start_state_nodes in Ha.
  apply lookup_singleton_Some in Ha as [<- <-]. done.
Qed.

Lemma stop_id_not_start body :
  cond_id (visit_all body (start_state init)) ≠ node_id 1.
Proof.
  intros Heq. apply node_id_inj in Heq.
  pose proof (ext_counter _ _ (visit_all_extends' body (start_state init))) as H.
  simpl in H. lia.
Qed.

Lemma build_tree_start body id :
  is_sentinel "START" (graph (build_tree body init)) id ↔ id = node_id 1.
Proof.
  unfold is_sentinel. rewrite build_tree_nodes. simpl. split.
  - intros (a & Ha & Hl & Hs).
    destruct (decide (cond_id (visit_all body (start_state init)) = id)) as [<-|Hne].
    + rewrite lookup_insert_eq in Ha. by injection Ha as <-.
    + rewrite lookup_insert_ne in Ha by done.
      by destruct (ellipse_is_start body id a Ha Hs).
  - intros ->. exists (node_attr "START" "ellipse" "#DAF7A6").
    rewrite lookup_insert_ne by apply stop_id_not_start.
    by rewrite start_node_kept.
Qed.

Lemma build_tree_stop body id :
  is_sentinel "STOP" (graph (build_tree body init)) id ↔
  id = cond_id (visit_all body (start_state init)).
Proof.
  unfold is_sentinel. rewrite build_tree_nodes. simpl. split.
  - intros (a & Ha & Hl & Hs).
    destruct (decide (cond_id (visit_all body (start_state init)) = id)) as [<-|Hne];
      [done|].
    rewrite lookup_insert_ne in Ha by done.
    destruct (ellipse_is_start body id a Ha Hs) as [_ ->]. done.
  - intros ->. exists (node_attr "STOP" "ellipse" "#FFC300").
    by rewrite lookup_insert_eq.
Qed.


End sentinels.


(** ** Loops *)

(** C5.  After the body of a [while], every node of the frontier has an
    edge labelled ["Loop"] to the predicate node, the other edges are those
    the body left, and the frontier becomes the predicate alone.  For
    [while x > 0: x = x - 1] the one ["Loop"] edge runs from the body's
    node to the predicate, and the cyclomatic complexity is 2. *)
Theorem visit_While_back_edges :
  (∀ test body orelse b,
     let b1 := visit_all body (while_entry test b) in
     let b' := visit (While test body orelse) b in
     (∀ n, n ∈ last_nodes b1 →
        edges (graph b') !! (n, cond_id b) = Some "Loop") ∧
     (∀ u v, ¬ (v = cond_id b ∧ u ∈ last_nodes b1) →
        edges (graph b') !! (u, v) = edges (graph b1) !! (u, v)) ∧
     last_nodes (while_entry test b) = [cond_id b] ∧
     last_nodes b' = [cond_id b]) ∧
  (let g := graph (build_tree while_example init) in
   size (loop_edges g) = 1 ∧
   edges g !! (node_id 3, node_id 2) = Some "Loop" ∧
   (nodes g !! node_id 2) ≫= (.!! "label") = Some "while x > 0:" ∧
   (nodes g !! node_id 3) ≫= (.!! "label") = Some "x = x - 1" ∧
   cyclomatic_complexity g = 2%Z).
Proof.
  split.
  - intros test body orelse b b1 b'. subst b'. rewrite visit_While_eq.
    fold b1. simpl. repeat split.
    + intros n Hn. rewrite add_edges_from_edges. by rewrite decide_True.
    + intros u v Hn. rewrite add_edges_from_edges. by rewrite decide_False.
  - vm_compute. done.
Qed.

(** ** Conditionals *)

(** C6.  The frontier after an [if] is the exits of the true branch
    followed by the exits of the false branch, each branch being entered
    with the predicate node as frontier; with no [else] the false exits
    are the predicate node alone. *)
Theorem visit_If_frontier :
  ∀ test body orelse b,
    let cond := cond_id b in
    let true_exits := last_nodes (visit_all body (if_entry test b)) in
    let false_exits := last_nodes (visit_all orelse (orelse_entry test body b)) in
    last_nodes (if_entry test b) = [cond] ∧
    last_nodes (orelse_entry test body b) = [cond] ∧
    last_nodes (visit (If test body orelse) b) = true_exits ++ false_exits ∧
    last_nodes (visit (If test body []) b) = true_exits ++ [cond].
Proof.
  intros test body orelse b cond true_exits false_exits.
  split; [done|]. split; [done|]. split; [|done].
  rewrite visit_If_eq. by destruct orelse.
Qed.

(** ** Statements of other kinds *)

Lemma visit_all_inert l b :
  Forall (λ n, handled_inside n = false → ∀ b, visit n b = b) l →
  existsb handled_inside l = false → visit_all l b = b.
Proof.
  intros H. revert b. induction H as [|n l Hn _ IH]; intros b Hl; [done|].
  simpl in Hl. apply orb_false_iff in Hl as [H1 H2].
  rewrite visit_all_cons, Hn by done. by apply IH.
Qed.

Lemma visit_inert n : handled_inside n = false → ∀ b, visit n b = b.
Proof.
  induction n as [text|text|test body orelse _ _
                 |test body orelse _ _|cls text children IH]
    using ast_node_ind; intros Hn b; try done.
  rewrite visit_Other_eq. by apply visit_all_inert.
Qed.




(** C10.  A node of a class without a [visit_] method is visited by
    visiting its children in order: the program behaves as if the children
    stood in its place, and no node is made for the statement itself.  The
    loop [for i in xs: x = 1] gives the graph of [x = 1]. *)
Theorem visit_Other_children :
  (∀ cls text children b,
     visit (Other cls text children) b = visit_all children b) ∧
  (∀ cls text children pre post self,
     build_tree (pre ++ Other cls text children :: post) self =
     build_tree (pre ++ children ++ post) self) ∧
  build_tree [for_example] init = build_tree [Assign "x = 1"] init ∧
  number_of_nodes (graph (build_tree [for_example] init)) = 3.
Proof.
  split; [done|]. split.
  - intros cls text children pre post self. rewrite !build_tree_eq.
    rewrite !visit_all_app, visit_all_cons, visit_Other_eq. done.
  - split; [|by vm_compute].
    rewrite !build_tree_eq. unfold for_example.
    rewrite !visit_all_cons, visit_Other_eq, !visit_all_cons.
    rewrite !(visit_inert (Other _ _ _)) by done. done.
Qed.

(** ** Edges of a [DiGraph] *)

(** The claim of C2 fails: the finished graph of the empty program has the
    one edge from START to STOP; a second [add_edge] on that pair, labelled
    ["Loop"], relabels the edge, and the graph still has one edge.  In the
    program [if a: pass] followed by [x = 1] the frontier holds the
    predicate twice, [add_edge] is called twice on one pair, and the graph
    has three edges, not four. *)
Lemma second_edge_not_added :
  let b := build_tree [] init in
  let b' := add_edge (node_id 1) (node_id 2) "Loop" b in
  edges (graph b) !! (node_id 1, node_id 2) = Some "" ∧
  number_of_edges (graph b) = 1 ∧
  number_of_edges (graph b') = 1 ∧
  edges (graph b') !! (node_id 1, node_id 2) = Some "Loop" ∧
  last_nodes (visit (If "a" [pass_stmt] []) (start_state init))
    = [node_id 2; node_id 2] ∧
  number_of_edges (graph (build_tree if_pass_example init)) = 3.
Proof. vm_compute. done. Qed.

(** C2, amended.  A [DiGraph] holds one edge per ordered pair: a second
    [add_edge] on the same pair adds no edge, the count of edges and the
    nodes stay as after the first call, and the edge carries the label of
    the last call. *)
Theorem add_edge_twice :
  ∀ b u v l1 l2,
    let b1 := add_edge u v l1 b in
    let b2 := add_edge u v l2 b1 in
    number_of_edges (graph b2) = number_of_edges (graph b1) ∧
    edges (graph b2) !! (u, v) = Some l2 ∧
    edges (graph b2) = edges (graph (add_edge u v l2 b)) ∧
    nodes (graph b2) = nodes (graph b1).
Proof.
  intros b u v l1 l2 b1 b2. subst b1 b2. unfold number_of_edges. simpl.
  rewrite insert_insert_eq, lookup_insert_eq.
  assert (∀ n ns, touch_node n (touch_node n ns) = touch_node n ns) as Hid.
  { intros n ns. apply touch_node_known. unfold touch_node.
    destruct (ns !! n) eqn:E; [by rewrite E|]. rewrite lookup_insert_eq. eauto. }
  assert (∀ n m ns, is_Some (touch_node m (touch_node n ns) !! n)) as Hk.
  { intros n m ns. assert (is_Some (touch_node n ns !! n)) as [a Ha].
    { unfold touch_node. destruct (ns !! n) eqn:E; [by rewrite E|].
      rewrite lookup_insert_eq. eauto. }
    exists a. by apply touch_node_lookup_Some. }
  repeat split.
  - rewrite <- (size_dom (<[(u, v):=l2]> (edges (graph b)))).
    rewrite <- (size_dom (<[(u, v):=l1]> (edges (graph b)))).
    by rewrite !dom_insert_L.
  - rewrite (touch_node_known u) by apply Hk. apply Hid.
Qed.

(** The claim of C7 fails: an edge between two ids the graph has never
    seen is added, and both ids become nodes, without attributes. *)
Lemma add_edge_unknown_endpoints :
  let b := add_edge "ghost" "phantom" "" init in
  nodes (graph init) !! "ghost" = None ∧
  nodes (graph init) !! "phantom" = None ∧
  edges (graph b) !! ("ghost", "phantom") = Some "" ∧
  nodes (graph b) !! "ghost" = Some ∅ ∧
  nodes (graph b) !! "phantom" = Some ∅ ∧
  number_of_nodes (graph b) = 2 ∧ number_of_edges (graph b) = 1.
Proof. vm_compute. done. Qed.

(** C7, amended.  [add_edge] never fails: the edge is in the graph after
    the call, both endpoints are nodes, an endpoint that was not a node
    before is one with no attributes, and the nodes there were keep their
    attributes. *)
Theorem add_edge_total :
  ∀ b u v l,
    let b' := add_edge u v l b in
    edges (graph b') !! (u, v) = Some l ∧
    known b' u ∧ known b' v ∧
    (∀ id a, nodes (graph b) !! id = Some a → nodes (graph b') !! id = Some a) ∧
    (∀ id a, nodes (graph b') !! id = Some a →
       nodes (graph b) !! id = Some a ∨
       (nodes (graph b) !! id = None ∧ a = ∅ ∧ (id = u ∨ id = v))).
Proof.
  intros b u v l b'. subst b'. unfold known. simpl.
  assert (∀ n ns, is_Some (touch_node n ns !! n)) as Hk.
  { intros n ns. unfold touch_node. destruct (ns !! n) eqn:E; [by rewrite E|].
    rewrite lookup_insert_eq. eauto. }
  split; [apply lookup_insert_eq|]. split.
  { destruct (Hk u (nodes (graph b))) as [a Ha]. exists a.
    by apply touch_node_lookup_Some. }
  split; [apply Hk|]. split.
  - intros id a Ha. by do 2 apply touch_node_lookup_Some.
  - intros id a Ha.
    apply touch_node_lookup_inv in Ha as [Ha|(-> & -> & Hn)].
    + apply touch_node_lookup_inv in Ha as [Ha|(-> & -> & Hn)]; [by left|].
      right. auto.
    + right. split; [|auto].
      destruct (nodes (graph b) !! v) eqn:E; [|done].
      by erewrite touch_node_lookup_Some in Hn.
Qed.

(** ** Nested statements *)

Section calls.
Implicit Types (b c : CFGBuilder) (l : list ast_node) (m n : ast_node).

Lemma wf_orelse_entry test body b : wf b → wf (orelse_entry test body b).
Proof.
  intros Hwf. destruct (wf_if_entry test b Hwf) as [H1 H2].
  apply wf_set_last_nodes; [by apply wf_visit_all'|].
  constructor; [|done].
  by apply (ext_known _ _ (visit_all_extends' body (if_entry test b))).
Qed.

Lemma calls_wf l b m c : calls l b m c → wf b → wf c.
Proof.
  induction 1 as [n l b|n l b m c _ IH|test body orelse l b m c _ IH
                 |test body orelse l b m c _ IH|test body orelse l b m c _ IH
                 |cls text children l b m c _ IH]; intros Hwf.
  - done.
  - by apply IH, wf_visit.
  - by apply IH, wf_if_entry.
  - by apply IH, wf_orelse_entry.
  - by apply IH, wf_while_entry.
  - by apply IH.
Qed.

Lemma visit_all_counter l b : counter b ≤ counter (visit_all l b).
Proof. apply visit_all_extends'. Qed.

Lemma visit_counter n b : counter b ≤ counter (visit n b).
Proof. apply visit_extends. Qed.

Lemma orelse_entry_counter test body b :
  counter (orelse_entry test body b) = counter (visit_all body (if_entry test b)).
Proof. done. Qed.

Lemma visit_If_counter test body orelse b :
  counter (visit_all body (if_entry test b)) ≤ counter (visit (If test body orelse) b) ∧
  counter (visit_all orelse (orelse_entry test body b))
    ≤ counter (visit (If test body orelse) b).
Proof.
  rewrite visit_If_eq. destruct orelse as [|o orelse]; simpl.
  - split; lia.
  - split; [|lia].
    pose proof (visit_all_counter (o :: orelse) (orelse_entry test body b)) as H.
    rewrite orelse_entry_counter in H. exact H.
Qed.

Lemma visit_While_counter test body orelse b :
  counter (visit (While test body orelse) b) =
  counter (visit_all body (while_entry test b)).
Proof. rewrite visit_While_eq. simpl. apply add_edges_from_counter. Qed.

(** The counter at a nested call lies between those before and after the
    enclosing visit. *)
Lemma calls_counter l b m c :
  calls l b m c →
  counter b ≤ counter c ∧ counter (visit m c) ≤ counter (visit_all l b).
Proof.
  induction 1 as [n l b|n l b m c _ IH|test body orelse l b m c _ IH
                 |test body orelse l b m c _ IH|test body orelse l b m c _ IH
                 |cls text children l b m c _ IH];
    rewrite visit_all_cons.
  - split; [lia|apply visit_all_counter].
  - pose proof (visit_counter n b). lia.
  - pose proof (if_entry_counter test b).
    pose proof (visit_If_counter test body orelse b).
    pose proof (visit_all_counter l (visit (If test body orelse) b)). lia.
  - pose proof (if_entry_counter test b).
    pose proof (visit_all_counter body (if_entry test b)).
    pose proof (orelse_entry_counter test body b).
    pose proof (visit_If_counter test body orelse b).
    pose proof (visit_all_counter l (visit (If test body orelse) b)). lia.
  - pose proof (while_entry_counter test b).
    pose proof (visit_While_counter test body orelse b).
    pose proof (visit_all_counter l (visit (While test body orelse) b)). lia.
  - pose proof (visit_all_counter l (visit (Other cls text children) b)).
    rewrite visit_Other_eq in *. lia.
Qed.

Lemma old_id_le b k : k ≤ counter b → old_id b (node_id k).
Proof. intros Hk j Hj Heq. apply node_id_inj in Heq. lia. Qed.

Lemma edges_after_rest n l b u k :
  k ≤ counter (visit n b) →
  edges (graph (visit_all (n :: l) b)) !! (u, node_id k) =
  edges (graph (visit n b)) !! (u, node_id k).
Proof.
  intros Hk. rewrite visit_all_cons.
  apply (ext_edges _ _ (visit_all_extends' l (visit n b))). by apply old_id_le.
Qed.

(** Once a nested visit has returned, the edges into the nodes it made
    are those of the finished graph. *)
Lemma calls_edges l b m c :
  calls l b m c →
  ∀ u k, counter c < k ≤ counter (visit m c) →
    edges (graph (visit_all l b)) !! (u, node_id k) =
    edges (graph (visit m c)) !! (u, node_id k).
Proof.
  induction 1 as [n l b|n l b m c _ IH|test body orelse l b m c Hc IH
                 |test body orelse l b m c Hc IH|test body orelse l b m c Hc IH
                 |cls text children l b m c Hc IH]; intros u k Hk.
  - apply edges_after_rest. lia.
  - rewrite visit_all_cons. by apply IH.
  - apply calls_counter in Hc as [Hc1 Hc2].
    pose proof (visit_If_counter test body orelse b) as [Hi1 Hi2].
    rewrite edges_after_rest by lia. rewrite <- (IH u k Hk).
    rewrite visit_If_eq. destruct orelse as [|o orelse]; simpl; [done|].
    apply (ext_edges _ _ (visit_all_extends' (o :: orelse) (orelse_entry test body b))).
    apply old_id_le. rewrite orelse_entry_counter. lia.
  - pose proof (calls_counter _ _ _ _ Hc) as [Hc1 Hc2].
    pose proof (visit_If_counter test body orelse b) as [Hi1 Hi2].
    rewrite edges_after_rest by lia. rewrite <- (IH u k Hk).
    rewrite visit_If_eq. destruct orelse as [|o orelse]; simpl; [|done].
    inversion Hc.
  - apply calls_counter in Hc as [Hc1 Hc2].
    pose proof (visit_While_counter test body orelse b) as Hw.
    pose proof (while_entry_counter test b) as He.
    rewrite edges_after_rest by lia. rewrite <- (IH u k Hk).
    rewrite visit_While_eq. simpl. apply add_edges_from_edges_other.
    intros Heq. apply node_id_inj in Heq. lia.
  - apply calls_counter in Hc as [Hc1 Hc2].
    rewrite edges_after_rest by (rewrite visit_Other_eq; lia).
    rewrite visit_Other_eq. by apply IH.
Qed.

(** The edges into the predicate of a [while] when the visit returns. *)
Lemma visit_While_cond_edges test body orelse c u :
  wf c →
  edges (graph (visit (While test body orelse) c)) !! (u, cond_id c) =
    if decide (u ∈ last_nodes (visit_all body (while_entry test c)))
    then Some "Loop"
    else if decide (u ∈ last_nodes c) then Some "" else None.
Proof.
  intros Hwf. rewrite visit_While_eq. simpl. rewrite add_edges_from_edges.
  destruct (decide (u ∈ last_nodes (visit_all body (while_entry test c))))
    as [Hin|Hn].
  - by rewrite decide_True.
  - rewrite decide_False by (by intros [_ ?]).
    rewrite (ext_edges _ _ (visit_all_extends' body (while_entry test c))).
    + rewrite while_entry_edges.
      destruct (decide (u ∈ last_nodes c)) as [Hu|Hu].
      * by rewrite decide_True.
      * rewrite decide_False by (by intros [_ ?]).
        destruct (edges (graph c) !! (u, cond_id c)) eqn:E; [|done].
        destruct (wf_edges _ Hwf u (cond_id c)) as [_ [a Ha]]; [by eexists|].
        by rewrite (wf_fresh c Hwf) in Ha.
    + apply old_id_le. rewrite while_entry_counter. done.
Qed.
End calls.

(** C3.  For a [while] anywhere in a program whose body ends with an [if],
    the edges labelled ["Loop"] into the loop predicate in the finished
    graph come from exactly the exits of the true branch and the exits of
    the false branch of that [if], one edge from each such node. *)
Theorem loop_back_edges_from_both_arms
    (prog pre body2 orelse2 orelse : list ast_node) (test test2 : string)
    (c : CFGBuilder) :
  calls prog (start_state init)
    (While test (pre ++ [If test2 body2 orelse2]) orelse) c →
  let g := graph (build_tree prog init) in
  let b_if := visit_all pre (while_entry test c) in
  let true_exits := last_nodes (visit_all body2 (if_entry test2 b_if)) in
  let false_exits :=
    last_nodes (visit_all orelse2 (orelse_entry test2 body2 b_if)) in
  ∀ u, edges g !! (u, cond_id c) = Some "Loop" ↔ u ∈ true_exits ++ false_exits.
Proof.
  intros Hc g b_if true_exits false_exits u. subst g.
  pose proof (calls_wf _ _ _ _ Hc wf_start_state) as Hwf.
  pose proof (calls_counter _ _ _ _ Hc) as [Hc1 Hc2].
  set (loop := While test (pre ++ [If test2 body2 orelse2]) orelse) in *.
  assert (counter c < counter (visit loop c)) as Hlt.
  { unfold loop. rewrite visit_While_counter.
    pose proof (visit_all_counter (pre ++ [If test2 body2 orelse2]) (while_entry test c)).
    pose proof (while_entry_counter test c). lia. }
  rewrite build_tree_edges. simpl.
  rewrite decide_False.
  2:{ intros [Heq _]. apply node_id_inj in Heq. lia. }
  unfold cond_id at 1.
  rewrite (calls_edges _ _ _ _ Hc u (S (counter c))) by lia.
  fold (cond_id c). unfold loop. rewrite visit_While_cond_edges by done.
  assert (last_nodes (visit_all (pre ++ [If test2 body2 orelse2]) (while_entry test c))
          = true_exits ++ false_exits) as ->.
  { rewrite visit_all_app, visit_all_cons, visit_all_nil. fold b_if.
    rewrite visit_If_eq. by destruct orelse2. }
  case_decide as Hin; [done|]. split; [|done].
  by case_decide.
Qed.

Lemma loop_back_edges_from_both_arms_witness :
  calls while_if_example (start_state init)
    (While "a" ([] ++ [If "b" [Assign "x = 1"] [Assign "y = 2"]]) [])
    (start_state init) ∧
  edges (graph (build_tree while_if_example init)) !! (node_id 4, node_id 2)
    = Some "Loop" ∧
  edges (graph (build_tree while_if_example init)) !! (node_id 5, node_id 2)
    = Some "Loop".
Proof.
  pose proof (loop_back_edges_from_both_arms while_if_example [] [Assign "x = 1"]
                [Assign "y = 2"] [] "a" "b" (start_state init)
                (calls_here _ _ _)) as H.
  split; [apply calls_here|].
  split; apply H.
  - apply list_elem_of_here.
  - apply list_elem_of_further, list_elem_of_here.
Defined.

(** ** Parse failures *)




(** C9.  An exception of the parser that is not a [SyntaxError] is not
    caught: [build] raises it, returns nothing, and leaves the builder as
    it was.  The failure result is returned for a [SyntaxError] only. *)
Theorem build_other_exception
    (parse : string → outcome (list ast_node)) (self : CFGBuilder)
    (code cls msg : string) :
  parse code = Raised (OtherException cls msg) →
  build parse self code = (self, Raised (OtherException cls msg)) ∧
  (∀ r, (build parse self code).2 ≠ Returned r) ∧
  (∀ code' g err, (build parse self code').2 = Returned (g, Some err) →
     g = None ∧ ∃ m, parse code' = Raised (SyntaxError m)
                     ∧ err = "Syntax Error: " +:+ m).
Proof.
  intros Hparse. unfold build. rewrite Hparse.
  split; [done|]. split; [done|]. intros code' g err H.
  destruct (parse code') as [body|[m|c m]]; simpl in H; try congruence.
  injection H as <- <-. eauto.
Qed.

Lemma build_other_exception_witness :
  let parse := λ _ : string,
    Raised (A := list ast_node)
      (OtherException "ValueError" "source code string cannot contain null bytes") in
  build parse init "x = 1" =
    (init, Raised (OtherException "ValueError"
                     "source code string cannot contain null bytes")).
Proof.
  intros parse.
  apply (build_other_exception parse init "x = 1" "ValueError"
           "source code string cannot contain null bytes" eq_refl).
Defined.


(** ** The programs of the specification's test list *)

Example empty_program :
  let g := graph (build_tree [] init) in
  number_of_nodes g = 2 ∧ number_of_edges g = 1 ∧ predicates g = 0 ∧
  cyclomatic_complexity g = 1%Z.
Proof. vm_compute. done. Qed.

Example single_assignment :
  let g := graph (build_tree [Assign "x = 10"] init) in
  number_of_nodes g = 3 ∧ number_of_edges g = 2 ∧ predicates g = 0 ∧
  cyclomatic_complexity g = 1%Z.
Proof. vm_compute. done. Qed.

Example if_else_program :
  let g := graph (build_tree [If "x > 5" [Expr "print('a')"] [Assign "x = 0"]] init) in
  predicates g = 1 ∧ in_degree g (node_id 5) = 2 ∧ cyclomatic_complexity g = 2%Z.
Proof. vm_compute. done. Qed.

Example while_program_predicates :
  predicates (graph (build_tree while_example init)) = 1.
Proof. vm_compute. done. Qed.

(** A statement whose text is [START] is drawn as a [rect]: two nodes carry
    the label, one of them is the sentinel. *)
Example start_label_twice :
  let g := graph (build_tree [Expr "START"] init) in
  (nodes g !! node_id 1) ≫= (.!! "label") = Some "START" ∧
  (nodes g !! node_id 2) ≫= (.!! "label") = Some "START" ∧
  (nodes g !! node_id 1) ≫= (.!! "shape") = Some "ellipse" ∧
  (nodes g !! node_id 2) ≫= (.!! "shape") = Some "rect".
Proof. vm_compute. done. Qed.

(** The loop of [nested_loop_example] is visited inside the [if], and its
    predicate gets its two back-edges. *)
Example nested_loop_calls :
  calls nested_loop_example (start_state init)
    (While "a" [If "b" [Assign "x = 1"] [Assign "y = 2"]] [])
    (if_entry "c" (visit (Assign "z = 0") (start_state init))) ∧
  let g := graph (build_tree nested_loop_example init) in
  edges g !! (node_id 6, node_id 4) = Some "Loop" ∧
  edges g !! (node_id 7, node_id 4) = Some "Loop" ∧
  size (loop_edges g) = 2.
Proof.
  split.
  - apply calls_next, calls_if_body, calls_here.
  - vm_compute. done.
Qed.

(** ** How many nodes a visit makes *)

Section made.
Implicit Types (b : CFGBuilder) (l : list ast_node).

Lemma made_all_cons n l : made_all (n :: l) = made n + made_all l.
Proof. done. Qed.

Lemma made_If test body orelse :
  made (If test body orelse) = S (made_all body + made_all orelse).
Proof. done. Qed.

Lemma made_While test body orelse :
  made (While test body orelse) = S (made_all body).
Proof. done. Qed.

Lemma set_last_nodes_counter ids b : counter (set_last_nodes ids b) = counter b.
Proof. done. Qed.

Lemma set_last_nodes_graph ids b : graph (set_last_nodes ids b) = graph b.
Proof. done. Qed.

Lemma visit_all_made l b :
  Forall (λ n, ∀ b, counter (visit n b) = counter b + made n) l →
  counter (visit_all l b) = counter b + made_all l.
Proof.
  intros H. revert b. induction H as [|n l Hn _ IH]; intros b.
  - rewrite visit_all_nil. unfold made_all. simpl. lia.
  - rewrite visit_all_cons, IH, Hn, made_all_cons. lia.
Qed.

Lemma visit_made n : ∀ b, counter (visit n b) = counter b + made n.
Proof.
  induction n as [text|text|test body orelse IHb IHo
                 |test body orelse IHb _|cls text children IH]
    using ast_node_ind; intros b.
  - rewrite (visit_simple_eq text b : visit (Assign text) b = _).
    rewrite set_last_nodes_counter, attach_counter. simpl. lia.
  - rewrite (visit_simple_eq text b : visit (Expr text) b = _).
    rewrite set_last_nodes_counter, attach_counter. simpl. lia.
  - pose proof (visit_all_made body (if_entry test b) IHb) as H1.
    rewrite if_entry_counter in H1.
    rewrite visit_If_eq, made_If. destruct orelse as [|o orelse].
    + cbv zeta. rewrite set_last_nodes_counter, H1.
      change (made_all []) with 0. lia.
    + pose proof (visit_all_made (o :: orelse) (orelse_entry test body b) IHo) as H2.
      rewrite orelse_entry_counter in H2.
      cbv zeta. rewrite set_last_nodes_counter, H2, H1. lia.
  - rewrite visit_While_counter, made_While.
    rewrite (visit_all_made body (while_entry test b) IHb), while_entry_counter. lia.
  - rewrite visit_Other_eq. by apply visit_all_made.
Qed.

Lemma visit_all_made' l b : counter (visit_all l b) = counter b + made_all l.
Proof. apply visit_all_made, Forall_forall. intros n _. apply visit_made. Qed.
End made.

(** ** The graph stays tidy *)

Section tidy.
Implicit Types (b : CFGBuilder) (l : list ast_node) (g : DiGraph).

Lemma reachable_mono g g' s t :
  (∀ u v, is_Some (edges g !! (u, v)) → is_Some (edges g' !! (u, v))) →
  reachable g s t → reachable g' s t.
Proof.
  intros Hm H. induction H as [|u v _ IH Huv].
  - constructor.
  - eapply reachable_step; [exact IH|]. by apply Hm.
Qed.

Lemma add_edges_from_edges_mono srcs t lbl b u v :
  is_Some (edges (graph b) !! (u, v)) →
  is_Some (edges (graph (add_edges_from srcs t lbl b)) !! (u, v)).
Proof. intros H. rewrite add_edges_from_edges. case_decide; eauto. Qed.

(** The nodes after [attach]: the new node, with the attributes given. *)
Lemma attach_nodes label shape color b :
  wf b →
  nodes (graph (attach label shape color b).2) =
    <[cond_id b := node_attr label shape color]> (nodes (graph b)).
Proof.
  intros Hwf. unfold attach.
  pose proof (wf_new_node label shape color b Hwf) as Hwf2.
  pose proof (known_new_node label shape color b) as Hk.
  pose proof (new_node_nodes label shape color b) as Hn.
  destruct (new_node label shape color b) as [curr b1] eqn:E.
  assert (curr = cond_id b) as -> by (by inversion E).
  simpl in Hwf2, Hk, Hn. cbn [snd].
  rewrite add_edges_from_nodes; [|done|apply Hwf2].
  rewrite Hn, (wf_fresh b Hwf). simpl. by rewrite (right_id_L ∅ (∪)).
Qed.

Lemma attach_known label shape color b id :
  wf b → known (attach label shape color b).2 id ↔ id = cond_id b ∨ known b id.
Proof.
  intros Hwf. unfold known. rewrite attach_nodes by done.
  rewrite lookup_insert_is_Some. split.
  - intros [<-|[_ H]]; auto.
  - intros [->|H]; [by left|].
    destruct (decide (cond_id b = id)) as [<-|Hne]; [by left|by right].
Qed.

Lemma wf_known_index b id : wf b → known b id → ∃ k, 1 ≤ k ≤ counter b ∧ id = node_id k.
Proof. intros Hwf. apply (wf_nodes b Hwf). Qed.

Lemma tidy_set_last_nodes ids b : tidy b → tidy (set_last_nodes ids b).
Proof. intros [s a t d lo r e]. by split. Qed.

Lemma add_edges_from_size srcs t lbl b :
  size (edges (graph b)) ≤ size (edges (graph (add_edges_from srcs t lbl b))).
Proof.
  revert b. induction srcs as [|u srcs IH]; intros b; [done|].
  rewrite add_edges_from_cons. etrans; [|apply IH]. simpl.
  rewrite map_size_insert. destruct (edges (graph b) !! (u, t)); simpl; lia.
Qed.

Lemma tidy_attach label shape color b :
  wf b → tidy b → last_nodes b ≠ [] → tidy (attach label shape color b).2.
Proof.
  intros Hwf [s a t d lo r e] Hne.
  assert (∀ u v, is_Some (edges (graph b) !! (u, v)) →
                 is_Some (edges (graph (attach label shape color b).2) !! (u, v)))
    as Hmono.
  { intros u v H. rewrite attach_edges. case_decide; eauto. }
  split.
  - rewrite attach_nodes, attach_counter by done.
    rewrite map_size_insert_None by (by apply wf_fresh). by rewrite s.
  - rewrite attach_counter. intros k Hk. apply attach_known; [done|].
    destruct (decide (k = S (counter b))) as [->|Hk']; [by left|].
    right. apply a. lia.
  - intros id x. rewrite attach_nodes by done.
    destruct (decide (cond_id b = id)) as [<-|Hid].
    + rewrite lookup_insert_eq. intros [= <-]. eauto.
    + rewrite lookup_insert_ne by done. apply t.
  - intros u v l. rewrite attach_edges. case_decide as Hd; [|apply d].
    destruct Hd as [-> Hu]. intros [= <-].
    assert (known b u) as Hku.
    { by eapply Forall_forall in Hu; [|apply (wf_last b Hwf)]. }
    destruct (wf_known_index b u Hwf Hku) as (j & Hj & ->).
    exists j, (S (counter b)). split; [done|]. split; [done|]. left. split; [done|lia].
  - intros u v. rewrite attach_edges. case_decide as Hd; [done|].
    intros H. destruct (lo u v H) as (x & Hx & Hw). exists x. split; [|done].
    rewrite attach_nodes by done. rewrite lookup_insert_ne; [done|].
    intros <-. by rewrite (wf_fresh b Hwf) in Hx.
  - intros id Hid. apply attach_known in Hid as [->|Hid]; [|by eauto using reachable_mono|done].
    destruct (last_nodes b) as [|u us] eqn:El; [done|].
    assert (known b u) as Hku.
    { pose proof (wf_last b Hwf) as Hl. rewrite El in Hl. by inversion Hl. }
    apply (reachable_step _ _ u).
    + eapply reachable_mono; [exact Hmono|]. by apply r.
    + rewrite attach_edges, decide_True; [eauto|].
      split; [done|]. rewrite El. apply list_elem_of_here.
  - rewrite attach_counter. unfold attach. cbn [snd new_node last_nodes].
    destruct (last_nodes b) as [|u us] eqn:El; [done|].
    rewrite add_edges_from_cons.
    etrans; [|apply le_n_S, add_edges_from_size]. simpl.
    rewrite map_size_insert_None; [lia|].
    destruct (edges (graph b) !! (u, node_id (S (counter b)))) eqn:E; [|done].
    destruct (wf_edges b Hwf u (cond_id b)) as [_ [x Hx]]; [by eexists|].
    by rewrite (wf_fresh b Hwf) in Hx.
Qed.

(** The back-edges of a loop, from nodes made no earlier than its
    predicate. *)
Lemma tidy_loop_edges srcs k a b :
  wf b → tidy b →
  nodes (graph b) !! node_id k = Some a → is_while_attr a →
  Forall (λ id, known b id ∧ ∃ j, k ≤ j ∧ id = node_id j) srcs →
  tidy (add_edges_from srcs (node_id k) "Loop" b).
Proof.
  intros Hwf [s al t d lo r e] Ha Hw Hs.
  assert (nodes (graph (add_edges_from srcs (node_id k) "Loop" b)) = nodes (graph b))
    as Hn.
  { apply add_edges_from_nodes; [by eexists|].
    eapply Forall_impl; [exact Hs|]. by intros id [H _]. }
  split; unfold known; rewrite ?Hn, ?add_edges_from_counter; try done.
  - intros u v l. rewrite add_edges_from_edges. case_decide as Hd; [|apply d].
    destruct Hd as [-> Hu]. intros [= <-].
    eapply Forall_forall in Hu; [|exact Hs]. destruct Hu as [_ (j & Hj & ->)].
    exists j, k. split; [done|]. split; [done|]. right. done.
  - intros u v. rewrite add_edges_from_edges. case_decide as Hd; [|apply lo].
    destruct Hd as [-> _]. intros _. eauto.
  - intros id Hid. eapply reachable_mono; [|by apply r].
    intros u v. apply add_edges_from_edges_mono.
  - etrans; [exact e|]. apply le_n_S, add_edges_from_size.
Qed.
End tidy.

Section front.
Implicit Types (b : CFGBuilder) (l : list ast_node).

Lemma front_le m b : wf b → front m b → m ≤ counter b.
Proof.
  intros Hwf [Hne Hall]. pose proof (wf_last b Hwf) as Hk.
  destruct (last_nodes b) as [|u us]; [done|].
  apply Forall_cons in Hall as [(j & Hj & ->) _].
  apply Forall_cons in Hk as [Hk _].
  destruct (wf_known_index b _ Hwf Hk) as (k & Hk' & Heq).
  apply node_id_inj in Heq. lia.
Qed.

Lemma front_weaken m m' b : m' ≤ m → front m b → front m' b.
Proof.
  intros Hle [Hne Hall]. split; [done|].
  eapply Forall_impl; [exact Hall|]. intros id (j & Hj & ->). exists j. split; [lia|done].
Qed.

Lemma front_singleton m k b : m ≤ k → front m (set_last_nodes [node_id k] b).
Proof.
  intros Hle. split; [done|]. constructor; [|constructor]. by exists k.
Qed.

Lemma front_app m ids1 ids2 b b1 b2 :
  front m b1 → front m b2 →
  ids1 = last_nodes b1 → ids2 = last_nodes b2 →
  front m (set_last_nodes (ids1 ++ ids2) b).
Proof.
  intros [Hn1 H1] [Hn2 H2] -> ->. split; simpl.
  - intros H. apply app_eq_nil in H as [H _]. done.
  - apply Forall_app. done.
Qed.

(** The builder when a branch or a loop body starts. *)
Lemma entry_tidy label shape color m b :
  wf b → tidy b → front m b →
  let b1 := set_last_nodes [cond_id b] (attach label shape color b).2 in
  wf b1 ∧ tidy b1 ∧ front (S (counter b)) b1 ∧
  nodes (graph b1) !! cond_id b = Some (node_attr label shape color).
Proof.
  intros Hwf Ht Hf b1. subst b1.
  destruct (wf_attach label shape color b Hwf) as [H1 H2].
  split; [|split; [|split]].
  - apply wf_set_last_nodes; [done|]. by constructor.
  - apply tidy_set_last_nodes, tidy_attach; [done..|]. apply Hf.
  - by apply front_singleton.
  - rewrite set_last_nodes_graph, attach_nodes by done. apply lookup_insert_eq.
Qed.

Lemma visit_all_tidy l :
  Forall (λ n, ∀ m b, wf b → tidy b → front m b →
                      tidy (visit n b) ∧ front m (visit n b)) l →
  ∀ m b, wf b → tidy b → front m b →
         tidy (visit_all l b) ∧ front m (visit_all l b).
Proof.
  induction 1 as [|n l Hn _ IH]; intros m b Hwf Ht Hf; [done|].
  rewrite visit_all_cons. destruct (Hn m b Hwf Ht Hf) as [Ht' Hf'].
  apply IH; [by apply wf_visit|done..].
Qed.

Lemma visit_tidy n :
  ∀ m b, wf b → tidy b → front m b → tidy (visit n b) ∧ front m (visit n b).
Proof.
  induction n as [text|text|test body orelse IHb IHo
                 |test body orelse IHb _|cls text children IH]
    using ast_node_ind; intros m b Hwf Ht Hf;
    pose proof (front_le m b Hwf Hf) as Hm.
  - rewrite (visit_simple_eq text b : visit (Assign text) b = _).
    destruct (entry_tidy text "rect" "#ffffff" m b Hwf Ht Hf) as (_ & H2 & H3 & _).
    split; [done|]. eapply front_weaken; [|exact H3]. lia.
  - rewrite (visit_simple_eq text b : visit (Expr text) b = _).
    destruct (entry_tidy text "rect" "#ffffff" m b Hwf Ht Hf) as (_ & H2 & H3 & _).
    split; [done|]. eapply front_weaken; [|exact H3]. lia.
  - destruct (entry_tidy ("if " +:+ test +:+ ":") "diamond" "#AED6F1" m b Hwf Ht Hf)
      as (E1 & E2 & E3 & _).
    rewrite <- if_entry_eq in E1, E2, E3.
    destruct (visit_all_tidy body IHb _ _ E1 E2 E3) as [B1 B2].
    pose proof (wf_visit_all' body _ E1) as B0.
    rewrite visit_If_eq. destruct orelse as [|o orelse]; cbv zeta.
    + split; [by apply tidy_set_last_nodes|].
      apply (front_app m _ _ _ (visit_all body (if_entry test b))
               (set_last_nodes [cond_id b] b)); try done.
      * eapply front_weaken; [|exact B2]. lia.
      * apply front_singleton. lia.
    + assert (wf (orelse_entry test body b)) as O1 by (by apply wf_orelse_entry).
      assert (tidy (orelse_entry test body b)) as O2 by (by apply tidy_set_last_nodes).
      assert (front (S (counter b)) (orelse_entry test body b)) as O3
        by (by apply front_singleton).
      destruct (visit_all_tidy (o :: orelse) IHo _ _ O1 O2 O3) as [C1 C2].
      split; [by apply tidy_set_last_nodes|].
      apply (front_app m _ _ _ (visit_all body (if_entry test b))
               (visit_all (o :: orelse) (orelse_entry test body b))); try done.
      * eapply front_weaken; [|exact B2]. lia.
      * eapply front_weaken; [|exact C2]. lia.
  - destruct (entry_tidy ("while " +:+ test +:+ ":") "diamond" "#F9E79F" m b Hwf Ht Hf)
      as (E1 & E2 & E3 & E4).
    rewrite <- while_entry_eq in E1, E2, E3, E4.
    destruct (visit_all_tidy body IHb _ _ E1 E2 E3) as [B1 B2].
    pose proof (wf_visit_all' body _ E1) as B0.
    rewrite visit_While_eq. cbv zeta. split; [|apply front_singleton; lia].
    apply tidy_set_last_nodes.
    apply (tidy_loop_edges _ (S (counter b))
             (node_attr ("while " +:+ test +:+ ":") "diamond" "#F9E79F")); try done.
    + apply (ext_nodes _ _ (visit_all_extends' body (while_entry test b))); [|done].
      apply old_id_le. rewrite while_entry_counter. done.
    + by exists test.
    + destruct B2 as [_ B2]. pose proof (wf_last _ B0) as B3.
      apply Forall_forall. intros id Hid. split.
      * by eapply Forall_forall in B3.
      * by eapply Forall_forall in B2.
  - rewrite visit_Other_eq. by apply visit_all_tidy.
Qed.

Lemma visit_all_tidy' l m b :
  wf b → tidy b → front m b → tidy (visit_all l b) ∧ front m (visit_all l b).
Proof.
  apply visit_all_tidy, Forall_forall. intros n _. apply visit_tidy.
Qed.

Lemma tidy_start_state : tidy (start_state init) ∧ front 1 (start_state init).
Proof.
  split; [split|].
  - rewrite start_state_nodes. by rewrite map_size_singleton.
  - intros k Hk. simpl in Hk. assert (k = 1) as -> by lia.
    unfold known. rewrite start_state_nodes, lookup_singleton_eq. eauto.
  - intros id a. rewrite start_state_nodes.
    intros [<- <-]%lookup_singleton_Some. eauto.
  - intros u v l H. simpl in H. by rewrite lookup_empty in H.
  - intros u v H. simpl in H. by rewrite lookup_empty in H.
  - intros id [a Ha]. rewrite start_state_nodes in Ha.
    apply lookup_singleton_Some in Ha as [<- _]. constructor.
  - simpl. lia.
  - apply (front_singleton 1 1 _). lia.
Qed.

(** [build] ends as every visit starts: the STOP node is attached to the
    frontier. *)
Lemma build_tree_attach body b :
  build_tree body b =
    (attach "STOP" "ellipse" "#FFC300" (visit_all body (start_state b))).2.
Proof. done. Qed.

Lemma wf_build_tree body : wf (build_tree body init).
Proof.
  rewrite build_tree_attach. apply wf_attach, wf_visit_all', wf_start_state.
Qed.

Lemma tidy_build_tree body : tidy (build_tree body init).
Proof.
  destruct tidy_start_state as [T F].
  destruct (visit_all_tidy' body 1 _ wf_start_state T F) as [T' F'].
  rewrite build_tree_attach. apply tidy_attach; [|done|apply F'].
  apply wf_visit_all', wf_start_state.
Qed.
End front.

(** ** The finished graph *)

Lemma dot_node_args_attr label shape color :
  dot_node_args (node_attr label shape color) = Some (label, shape, color, "filled").
Proof. done. Qed.

(** X1.  The finished graph can be drawn: both ends of every edge are
    nodes of the graph, and every node carries the four attributes the page
    reads, so no lookup of the drawing loop fails. *)
Theorem built_graph_renders (body : list ast_node) :
  let g := graph (build_tree body init) in
  (∀ u v l, edges g !! (u, v) = Some l →
     is_Some (nodes g !! u) ∧ is_Some (nodes g !! v)) ∧
  (∀ id data, nodes g !! id = Some data →
     ∃ label shape color,
       dot_node_args data = Some (label, shape, color, "filled")).
Proof.
  intros g. subst g. split.
  - intros u v l H. apply (wf_edges _ (wf_build_tree body)). by eexists.
  - intros id data H.
    destruct (tidy_attrs _ (tidy_build_tree body) id data H)
      as (label & shape & color & ->).
    exists label, shape, color. apply dot_node_args_attr.
Qed.

Lemma build_tree_counter body :
  counter (build_tree body init) = 2 + made_all body.
Proof.
  rewrite build_tree_attach, attach_counter, visit_all_made'. simpl. lia.
Qed.

(** X2.  The graph has one node per [new_node] call: the two sentinels and
    one node for each assignment, expression statement, [if] and [while]
    the visitor reaches (the [else] of a [while] is not reached).  The ids
    are [node_1], ..., [node_N] without gap. *)
Theorem build_node_count (body : list ast_node) :
  let b := build_tree body init in
  counter b = 2 + made_all body ∧
  number_of_nodes (graph b) = 2 + made_all body ∧
  (∀ id, is_Some (nodes (graph b) !! id) ↔
         ∃ k, 1 ≤ k ≤ 2 + made_all body ∧ id = node_id k).
Proof.
  intros b. subst b. pose proof (build_tree_counter body) as Hc.
  split; [done|]. split.
  - unfold number_of_nodes. by rewrite (tidy_size _ (tidy_build_tree body)).
  - intros id. rewrite <- Hc. split.
    + apply (wf_nodes _ (wf_build_tree body)).
    + intros (k & Hk & ->). by apply (tidy_all _ (tidy_build_tree body)).
Qed.

(** X3.  Every node of the finished graph can be reached from the START
    node along edges. *)
Theorem built_graph_reachable (body : list ast_node) (start id : string) :
  is_sentinel "START" (graph (build_tree body init)) start →
  is_Some (nodes (graph (build_tree body init)) !! id) →
  reachable (graph (build_tree body init)) start id.
Proof.
  intros Hs Hid. apply build_tree_start in Hs as ->.
  by apply (tidy_reach _ (tidy_build_tree body)).
Qed.

Lemma built_graph_reachable_witness :
  reachable (graph (build_tree while_example init)) (node_id 1) (node_id 4).
Proof.
  apply (built_graph_reachable while_example (node_id 1) (node_id 4)).
  - exists (node_attr "START" "ellipse" "#DAF7A6"). by vm_compute.
  - vm_compute. eauto.
Defined.

(** X4.  Edges follow the order in which the nodes were made: an edge with
    the empty label goes from a node to one made later, an edge labelled
    ["Loop"] goes to the predicate node of a [while], from that node or one
    made later.  No other label occurs. *)
Theorem built_edges_direction (body : list ast_node) (u v l : string) :
  let g := graph (build_tree body init) in
  edges g !! (u, v) = Some l →
  ∃ j k, u = node_id j ∧ v = node_id k ∧
    ((l = "" ∧ j < k) ∨
     (l = "Loop" ∧ k ≤ j ∧ ∃ a, nodes g !! v = Some a ∧ is_while_attr a)).
Proof.
  intros g H. subst g.
  destruct (tidy_dir _ (tidy_build_tree body) u v l H) as (j & k & -> & -> & Hd).
  exists j, k. split; [done|]. split; [done|].
  destruct Hd as [[-> Hjk]|[-> Hjk]]; [by left|right].
  split; [done|]. split; [done|].
  by apply (tidy_loop _ (tidy_build_tree body) (node_id j)).
Qed.

Lemma built_edges_direction_witness :
  ∃ j k, node_id 3 = node_id j ∧ node_id 2 = node_id k ∧
    (("Loop" = "" ∧ j < k) ∨
     ("Loop" = "Loop" ∧ k ≤ j ∧
      ∃ a, nodes (graph (build_tree while_example init)) !! node_id 2 = Some a
           ∧ is_while_attr a)).
Proof.
  apply (built_edges_direction while_example (node_id 3) (node_id 2) "Loop").
  by vm_compute.
Defined.

(** X5.  The cyclomatic complexity the page shows is at least 1: the graph
    has at least as many edges as nodes other than START. *)
Theorem built_complexity_positive (body : list ast_node) :
  let g := graph (build_tree body init) in
  number_of_nodes g ≤ S (number_of_edges g) ∧
  (1 ≤ cyclomatic_complexity g)%Z.
Proof.
  intros g. subst g.
  pose proof (tidy_edges _ (tidy_build_tree body)) as He.
  pose proof (tidy_size _ (tidy_build_tree body)) as Hs.
  unfold cyclomatic_complexity, number_of_nodes, number_of_edges.
  rewrite Hs. split; [done|]. lia.
Qed.

(** ** The node of a statement *)

Section statement_node.
Implicit Types (b c : CFGBuilder) (l : list ast_node) (m n : ast_node).

Lemma calls_tidy l b m c :
  calls l b m c →
  ∀ k, wf b → tidy b → front k b → tidy c ∧ ∃ k', front k' c.
Proof.
  induction 1 as [n l b|n l b m c _ IH|test body orelse l b m c _ IH
                 |test body orelse l b m c _ IH|test body orelse l b m c _ IH
                 |cls text children l b m c _ IH]; intros k Hwf Ht Hf.
  - eauto.
  - destruct (visit_tidy n k b Hwf Ht Hf) as [Ht' Hf'].
    apply (IH k); [by apply wf_visit|done..].
  - destruct (entry_tidy ("if " +:+ test +:+ ":") "diamond" "#AED6F1" k b Hwf Ht Hf)
      as (E1 & E2 & E3 & _).
    rewrite <- if_entry_eq in E1, E2, E3. by apply (IH (S (counter b))).
  - destruct (entry_tidy ("if " +:+ test +:+ ":") "diamond" "#AED6F1" k b Hwf Ht Hf)
      as (E1 & E2 & E3 & _).
    rewrite <- if_entry_eq in E1, E2, E3.
    destruct (visit_all_tidy' body _ _ E1 E2 E3) as [B1 _].
    apply (IH (S (counter b))).
    + by apply wf_orelse_entry.
    + by apply tidy_set_last_nodes.
    + by apply front_singleton.
  - destruct (entry_tidy ("while " +:+ test +:+ ":") "diamond" "#F9E79F" k b Hwf Ht Hf)
      as (E1 & E2 & E3 & _).
    rewrite <- while_entry_eq in E1, E2, E3. by apply (IH (S (counter b))).
  - by apply (IH k).
Qed.

Lemma nodes_kept b b' k a :
  extends b b' → k ≤ counter b →
  nodes (graph b) !! node_id k = Some a → nodes (graph b') !! node_id k = Some a.
Proof. intros He Hk. apply (ext_nodes _ _ He). by apply old_id_le. Qed.

Lemma nodes_after_rest n l b k a :
  k ≤ counter (visit n b) →
  nodes (graph (visit n b)) !! node_id k = Some a →
  nodes (graph (visit_all (n :: l) b)) !! node_id k = Some a.
Proof.
  intros Hk. rewrite visit_all_cons.
  by apply nodes_kept; [apply visit_all_extends'|].
Qed.

(** The nodes there are when a nested visit returns are in the finished
    graph, with the attributes they have then. *)
Lemma calls_nodes l b m c :
  calls l b m c →
  ∀ k a, k ≤ counter (visit m c) →
    nodes (graph (visit m c)) !! node_id k = Some a →
    nodes (graph (visit_all l b)) !! node_id k = Some a.
Proof.
  induction 1 as [n l b|n l b m c _ IH|test body orelse l b m c Hc IH
                 |test body orelse l b m c Hc IH|test body orelse l b m c Hc IH
                 |cls text children l b m c Hc IH]; intros k a Hk Ha.
  - by apply nodes_after_rest.
  - rewrite visit_all_cons. by apply IH.
  - pose proof (calls_counter _ _ _ _ Hc) as [Hc1 Hc2].
    pose proof (visit_If_counter test body orelse b) as [Hi1 Hi2].
    apply nodes_after_rest; [lia|]. specialize (IH k a Hk Ha).
    rewrite visit_If_eq. destruct orelse as [|o orelse]; cbv zeta;
      rewrite set_last_nodes_graph; [done|].
    apply (nodes_kept (orelse_entry test body b));
      [apply visit_all_extends'|rewrite orelse_entry_counter; lia|done].
  - pose proof (calls_counter _ _ _ _ Hc) as [Hc1 Hc2].
    pose proof (visit_If_counter test body orelse b) as [Hi1 Hi2].
    apply nodes_after_rest; [lia|]. specialize (IH k a Hk Ha).
    rewrite visit_If_eq. destruct orelse as [|o orelse]; cbv zeta;
      rewrite set_last_nodes_graph; [|done].
    inversion Hc.
  - pose proof (calls_counter _ _ _ _ Hc) as [Hc1 Hc2].
    pose proof (visit_While_counter test body orelse b) as Hw.
    apply nodes_after_rest; [lia|]. specialize (IH k a Hk Ha).
    rewrite visit_While_eq. cbv zeta. rewrite set_last_nodes_graph.
    by apply add_edges_from_nodes_Some.
  - pose proof (calls_counter _ _ _ _ Hc) as [Hc1 Hc2].
    apply nodes_after_rest; rewrite visit_Other_eq; [lia|]. by apply IH.
Qed.

Lemma statement_made m a : statement_attr m = Some a → 1 ≤ made m.
Proof. destruct m; simpl; try done; lia. Qed.

(** The first node a visit makes. *)
Lemma visit_first_node m c a :
  wf c → statement_attr m = Some a →
  nodes (graph (visit m c)) !! cond_id c = Some a.
Proof.
  intros Hwf Hm.
  destruct m as [text|text|test body orelse|test body orelse|cls text children];
    simpl in Hm; [injection Hm as <-..|done].
  - rewrite (visit_simple_eq text c : visit (Assign text) c = _).
    rewrite set_last_nodes_graph, attach_nodes by done. apply lookup_insert_eq.
  - rewrite (visit_simple_eq text c : visit (Expr text) c = _).
    rewrite set_last_nodes_graph, attach_nodes by done. apply lookup_insert_eq.
  - assert (nodes (graph (if_entry test c)) !! cond_id c
            = Some (node_attr ("if " +:+ test +:+ ":") "diamond" "#AED6F1")) as E.
    { rewrite if_entry_eq, set_last_nodes_graph, attach_nodes by done.
      apply lookup_insert_eq. }
    assert (nodes (graph (visit_all body (if_entry test c))) !! cond_id c
            = Some (node_attr ("if " +:+ test +:+ ":") "diamond" "#AED6F1")) as E1.
    { apply (nodes_kept (if_entry test c));
        [apply visit_all_extends'|by rewrite if_entry_counter|done]. }
    rewrite visit_If_eq. destruct orelse as [|o orelse]; cbv zeta;
      rewrite set_last_nodes_graph; [done|].
    apply (nodes_kept (orelse_entry test body c)); [apply visit_all_extends'| |done].
    rewrite orelse_entry_counter.
    pose proof (visit_all_counter body (if_entry test c)) as H.
    rewrite if_entry_counter in H. done.
  - rewrite visit_While_eq. cbv zeta. rewrite set_last_nodes_graph.
    apply add_edges_from_nodes_Some.
    apply (nodes_kept (while_entry test c));
      [apply visit_all_extends'|by rewrite while_entry_counter|].
    rewrite while_entry_eq, set_last_nodes_graph, attach_nodes by done.
    apply lookup_insert_eq.
Qed.

(** The edges with the empty label into the first node a visit makes. *)
Lemma visit_first_node_edges m c a k u :
  wf c → tidy c → front k c → statement_attr m = Some a →
  edges (graph (visit m c)) !! (u, cond_id c) = Some "" ↔ u ∈ last_nodes c.
Proof.
  intros Hwf Ht Hf Hm.
  assert (edges (graph c) !! (u, cond_id c) = None) as Hnone.
  { destruct (edges (graph c) !! (u, cond_id c)) eqn:E; [|done].
    destruct (wf_edges _ Hwf u (cond_id c)) as [_ [x Hx]]; [by eexists|].
    by rewrite (wf_fresh c Hwf) in Hx. }
  assert (∀ label shape color,
            edges (graph (attach label shape color c).2) !! (u, cond_id c) = Some ""
            ↔ u ∈ last_nodes c) as Hattach.
  { intros label shape color. rewrite attach_edges. case_decide as Hd.
    - split; [by destruct Hd|done].
    - rewrite Hnone. split; [done|]. intros Hu. by destruct Hd. }
  destruct m as [text|text|test body orelse|test body orelse|cls text children];
    simpl in Hm; [..|done].
  - rewrite (visit_simple_eq text c : visit (Assign text) c = _).
    rewrite set_last_nodes_graph. apply Hattach.
  - rewrite (visit_simple_eq text c : visit (Expr text) c = _).
    rewrite set_last_nodes_graph. apply Hattach.
  - rewrite <- (Hattach ("if " +:+ test +:+ ":") "diamond" "#AED6F1").
    assert (edges (graph (visit_all body (if_entry test c))) !! (u, cond_id c)
            = edges (graph (if_entry test c)) !! (u, cond_id c)) as E1.
    { apply (ext_edges _ _ (visit_all_extends' body (if_entry test c))).
      apply old_id_le. by rewrite if_entry_counter. }
    rewrite visit_If_eq. destruct orelse as [|o orelse]; cbv zeta;
      rewrite set_last_nodes_graph.
    + by rewrite E1.
    + rewrite (ext_edges _ _ (visit_all_extends' (o :: orelse) (orelse_entry test body c))).
      * unfold orelse_entry. rewrite set_last_nodes_graph. by rewrite E1.
      * apply old_id_le. rewrite orelse_entry_counter.
        pose proof (visit_all_counter body (if_entry test c)) as H.
        rewrite if_entry_counter in H. done.
  - rewrite visit_While_cond_edges by done.
    destruct (entry_tidy ("while " +:+ test +:+ ":") "diamond" "#F9E79F" k c Hwf Ht Hf)
      as (E1 & E2 & E3 & _).
    rewrite <- while_entry_eq in E1, E2, E3.
    destruct (visit_all_tidy' body _ _ E1 E2 E3) as [_ [_ B2]].
    case_decide as Hexit.
    + split; [done|]. intros Hu.
      destruct (proj1 (Forall_forall _ _) B2 u Hexit) as (j & Hj & ->).
      assert (known c (node_id j)) as Hk.
      { exact (proj1 (Forall_forall _ _) (wf_last c Hwf) _ Hu). }
      destruct (wf_known_index c _ Hwf Hk) as (i & Hi & Heq).
      apply node_id_inj in Heq. lia.
    + case_decide; split; done.
Qed.
End statement_node.

(** X6.  Every assignment, expression statement, [if] and [while] the
    visitor reaches has its node in the finished graph, with the label,
    shape and colour its [visit_] method gave it: a node is not changed
    once made. *)
Theorem statement_node_kept
    (prog : list ast_node) (m : ast_node) (c : CFGBuilder)
    (a : gmap string string) :
  calls prog (start_state init) m c →
  statement_attr m = Some a →
  nodes (graph (build_tree prog init)) !! cond_id c = Some a.
Proof.
  intros Hc Hm.
  pose proof (calls_wf _ _ _ _ Hc wf_start_state) as Hwf.
  pose proof (calls_counter _ _ _ _ Hc) as [Hc1 Hc2].
  pose proof (visit_made m c) as Hmade.
  pose proof (statement_made m a Hm) as H1.
  rewrite build_tree_attach, attach_nodes
    by apply wf_visit_all', wf_start_state.
  rewrite lookup_insert_ne.
  - apply (calls_nodes _ _ _ _ Hc (S (counter c))); [lia|].
    by apply visit_first_node.
  - intros Heq. apply node_id_inj in Heq. lia.
Qed.

Lemma statement_node_kept_witness :
  nodes (graph (build_tree nested_loop_example init)) !! node_id 4
    = Some (node_attr "while a:" "diamond" "#F9E79F").
Proof.
  apply (statement_node_kept nested_loop_example
           (While "a" [If "b" [Assign "x = 1"] [Assign "y = 2"]] [])
           (if_entry "c" (visit (Assign "z = 0") (start_state init)))).
  - apply calls_next, calls_if_body, calls_here.
  - reflexivity.
Defined.

(** X7.  In the finished graph the edges with the empty label into the
    node of a statement come from exactly the nodes that were the frontier
    when the statement was visited. *)
Theorem statement_predecessors
    (prog : list ast_node) (m : ast_node) (c : CFGBuilder)
    (a : gmap string string) (u : string) :
  calls prog (start_state init) m c →
  statement_attr m = Some a →
  edges (graph (build_tree prog init)) !! (u, cond_id c) = Some "" ↔
  u ∈ last_nodes c.
Proof.
  intros Hc Hm.
  pose proof (calls_wf _ _ _ _ Hc wf_start_state) as Hwf.
  destruct tidy_start_state as [T F].
  destruct (calls_tidy _ _ _ _ Hc 1 wf_start_state T F) as [Ht [k Hf]].
  pose proof (calls_counter _ _ _ _ Hc) as [Hc1 Hc2].
  pose proof (visit_made m c) as Hmade.
  pose proof (statement_made m a Hm) as H1.
  rewrite build_tree_edges. cbv zeta. rewrite decide_False.
  2:{ intros [Heq _]. apply node_id_inj in Heq. lia. }
  unfold cond_id at 1.
  rewrite (calls_edges _ _ _ _ Hc u (S (counter c))) by lia.
  fold (cond_id c). by apply (visit_first_node_edges m c a k u).
Qed.

Lemma statement_predecessors_witness :
  edges (graph (build_tree if_pass_example init)) !! (node_id 2, node_id 3)
    = Some "" ↔
  node_id 2 ∈ [node_id 2; node_id 2].
Proof.
  apply (statement_predecessors if_pass_example (Assign "x = 1")
           (visit (If "a" [pass_stmt] []) (start_state init))
           (node_attr "x = 1" "rect" "#ffffff") (node_id 2)).
  - apply calls_next, calls_here.
  - reflexivity.
Defined.

(** ** Loops, anywhere in a program *)

(** X8.  For every [while] the visitor reaches, the edges labelled
    ["Loop"] into its predicate in the finished graph come from exactly the
    nodes that were the frontier when the body ended.  When nothing in the
    body has a [visit_] method (a body of [pass]), that frontier is the
    predicate itself: the loop is drawn as one edge from the predicate to
    itself. *)
Theorem loop_back_edges
    (prog body orelse : list ast_node) (test : string) (c : CFGBuilder) :
  calls prog (start_state init) (While test body orelse) c →
  (∀ u, edges (graph (build_tree prog init)) !! (u, cond_id c) = Some "Loop" ↔
        u ∈ last_nodes (visit_all body (while_entry test c))) ∧
  (existsb handled_inside body = false →
   ∀ u, edges (graph (build_tree prog init)) !! (u, cond_id c) = Some "Loop" ↔
        u = cond_id c).
Proof.
  intros Hc.
  pose proof (calls_wf _ _ _ _ Hc wf_start_state) as Hwf.
  pose proof (calls_counter _ _ _ _ Hc) as [Hc1 Hc2].
  pose proof (visit_made (While test body orelse) c) as Hmade.
  rewrite made_While in Hmade.
  assert (∀ u, edges (graph (build_tree prog init)) !! (u, cond_id c) = Some "Loop" ↔
               u ∈ last_nodes (visit_all body (while_entry test c))) as H.
  { intros u. rewrite build_tree_edges. cbv zeta. rewrite decide_False.
    2:{ intros [Heq _]. apply node_id_inj in Heq. lia. }
    unfold cond_id at 1.
    rewrite (calls_edges _ _ _ _ Hc u (S (counter c))) by lia.
    fold (cond_id c). rewrite visit_While_cond_edges by done.
    case_decide; [done|]. split; [|done]. by case_decide. }
  split; [exact H|]. intros Hin u. rewrite H.
  rewrite visit_all_inert; [|apply Forall_forall; intros n _; apply visit_inert|done].
  rewrite while_entry_eq. simpl. apply list_elem_of_singleton.
Qed.

Lemma loop_back_edges_witness :
  (∀ u, edges (graph (build_tree [While "a" [pass_stmt] []] init))
          !! (u, node_id 2) = Some "Loop" ↔
        u ∈ [node_id 2]) ∧
  (existsb handled_inside [pass_stmt] = false →
   ∀ u, edges (graph (build_tree [While "a" [pass_stmt] []] init))
          !! (u, node_id 2) = Some "Loop" ↔
        u = node_id 2).
Proof.
  exact (loop_back_edges [While "a" [pass_stmt] []] [pass_stmt] [] "a"
           (start_state init) (calls_here _ _ _)).
Defined.

(** ** Programs without branch *)

Section chain.
Implicit Types (b : CFGBuilder) (l : list ast_node).

Lemma map_size_le_1 `{Countable K} {A} (m : gmap K A) :
  (∀ k1 k2 x1 x2, m !! k1 = Some x1 → m !! k2 = Some x2 → k1 = k2) →
  size m ≤ 1.
Proof.
  induction m as [|i x m Hi _] using map_ind; intros Huniq.
  - rewrite map_size_empty. lia.
  - rewrite map_size_insert_None by done.
    assert (m = ∅) as ->; [|by rewrite map_size_empty].
    apply map_empty. intros k. destruct (m !! k) as [y|] eqn:E; [|done].
    assert (k = i) as ->; [|congruence].
    apply (Huniq k i y x).
    + rewrite lookup_insert_ne; [done|]. intros ->. congruence.
    + apply lookup_insert_eq.
Qed.

Lemma chain_attach label shape color b :
  wf b → chain b →
  chain (set_last_nodes [cond_id b] (attach label shape color b).2).
Proof.
  intros Hwf (Hc & Hl & Hs & He).
  assert (edges (graph b) !! (node_id (counter b), cond_id b) = None) as Hnew.
  { destruct (edges (graph b) !! (node_id (counter b), cond_id b)) eqn:E; [|done].
    destruct (wf_edges _ Hwf (node_id (counter b)) (cond_id b)) as [_ [x Hx]];
      [by eexists|].
    by rewrite (wf_fresh b Hwf) in Hx. }
  split; [|split; [|split]].
  - rewrite set_last_nodes_counter, attach_counter. lia.
  - by rewrite set_last_nodes_counter, attach_counter.
  - rewrite set_last_nodes_counter, set_last_nodes_graph, attach_counter.
    unfold attach. cbn [snd new_node last_nodes]. rewrite Hl.
    rewrite add_edges_from_cons, add_edges_from_nil. cbn [add_edge graph graph_add_edge edges].
    change (edges (graph_add_node ?n ?a ?g)) with (edges g).
    rewrite map_size_insert_None by exact Hnew. lia.
  - intros u v l. rewrite set_last_nodes_graph, attach_edges.
    case_decide as Hd; [|apply He].
    destruct Hd as [-> Hu]. rewrite Hl in Hu. apply list_elem_of_singleton in Hu as ->.
    intros [= <-]. split; [done|]. by exists (counter b).
Qed.

Lemma straight_made l :
  Forall (λ n, straight n = true) l → made_all l = length l.
Proof.
  induction 1 as [|n l Hn _ IH]; [done|].
  rewrite made_all_cons, IH. destruct n; simpl in *; done.
Qed.

Lemma visit_all_chain l b :
  Forall (λ n, straight n = true) l → wf b → chain b →
  chain (visit_all l b).
Proof.
  intros H. revert b. induction H as [|n l Hn _ IH]; intros b Hwf Hch; [done|].
  rewrite visit_all_cons. apply IH; [by apply wf_visit|].
  destruct n as [text|text| | |]; try done.
  - rewrite (visit_simple_eq text b : visit (Assign text) b = _).
    by apply chain_attach.
  - rewrite (visit_simple_eq text b : visit (Expr text) b = _).
    by apply chain_attach.
Qed.

Lemma chain_start_state : chain (start_state init).
Proof.
  split; [simpl; lia|]. split; [done|]. split; [done|].
  intros u v l H. simpl in H. by rewrite lookup_empty in H.
Qed.

Lemma chain_out_degree b id : chain b → out_degree (graph b) id ≤ 1.
Proof.
  intros (_ & _ & _ & He). unfold out_degree, out_edges. apply map_size_le_1.
  intros [u1 v1] [u2 v2] l1 l2.
  intros [H1 E1]%map_lookup_filter_Some [H2 E2]%map_lookup_filter_Some.
  simpl in E1, E2. subst u1 u2.
  destruct (He _ _ _ H1) as (_ & j1 & -> & ->).
  destruct (He _ _ _ H2) as (_ & j2 & Hj & ->).
  apply node_id_inj in Hj as ->. done.
Qed.
End chain.

(** X9.  A program of assignments and expression statements only gives a
    chain: one node per statement and the two sentinels, one edge fewer
    than nodes, no predicate, cyclomatic complexity 1. *)
Theorem straight_line_metrics (body : list ast_node) :
  Forall (λ n, straight n = true) body →
  let g := graph (build_tree body init) in
  number_of_nodes g = length body + 2 ∧
  number_of_edges g = length body + 1 ∧
  predicates g = 0 ∧
  cyclomatic_complexity g = 1%Z.
Proof.
  intros Hs g. subst g.
  pose proof (build_tree_counter body) as Hc.
  rewrite (straight_made body Hs) in Hc.
  pose proof (tidy_size _ (tidy_build_tree body)) as Hn. rewrite Hc in Hn.
  assert (chain (set_last_nodes [cond_id (visit_all body (start_state init))]
                   (build_tree body init))) as Hch.
  { rewrite build_tree_attach. apply chain_attach.
    - apply wf_visit_all', wf_start_state.
    - apply visit_all_chain; [done|apply wf_start_state|apply chain_start_state]. }
  pose proof (λ id, chain_out_degree _ id Hch) as Hdeg.
  destruct Hch as (_ & _ & He & _).
  rewrite set_last_nodes_graph, set_last_nodes_counter, Hc in He.
  rewrite set_last_nodes_graph in Hdeg.
  unfold cyclomatic_complexity, number_of_nodes, number_of_edges.
  rewrite Hn, He. split; [lia|]. split; [lia|]. split; [|lia].
  unfold predicates. apply map_size_empty_iff, map_empty_filter_2.
  intros id a _. simpl. specialize (Hdeg id). lia.
Qed.

Lemma straight_line_metrics_witness :
  number_of_nodes (graph (build_tree [Assign "x = 10"; Expr "print(x)"] init)) = 4 ∧
  number_of_edges (graph (build_tree [Assign "x = 10"; Expr "print(x)"] init)) = 3 ∧
  predicates (graph (build_tree [Assign "x = 10"; Expr "print(x)"] init)) = 0 ∧
  cyclomatic_complexity (graph (build_tree [Assign "x = 10"; Expr "print(x)"] init)) = 1%Z.
Proof.
  apply (straight_line_metrics [Assign "x = 10"; Expr "print(x)"]).
  repeat constructor.
Defined.

(** ** The STOP node and the page *)

(** X10.  The edges into the STOP node come from exactly the nodes of the
    frontier after the last statement, and there is at least one. *)
Theorem stop_predecessors (body : list ast_node) :
  let b1 := visit_all body (start_state init) in
  let g := graph (build_tree body init) in
  (∀ u l, edges g !! (u, cond_id b1) = Some l ↔ l = "" ∧ u ∈ last_nodes b1) ∧
  (∃ u, edges g !! (u, cond_id b1) = Some "") ∧
  is_sentinel "STOP" g (cond_id b1).
Proof.
  intros b1 g. subst g.
  assert (wf b1) as Hwf by apply wf_visit_all', wf_start_state.
  destruct tidy_start_state as [T F].
  destruct (visit_all_tidy' body 1 _ wf_start_state T F) as [_ [Hne _]].
  fold b1 in Hne.
  assert (∀ u l, edges (graph (build_tree body init)) !! (u, cond_id b1) = Some l
                 ↔ l = "" ∧ u ∈ last_nodes b1) as H.
  { intros u l. rewrite build_tree_edges. cbv zeta. fold b1. case_decide as Hd.
    - destruct Hd as [_ Hu]. split; [by intros [= <-]|by intros [-> _]].
    - split; [|intros [_ Hu]; by destruct Hd].
      intros E. destruct (wf_edges _ Hwf u (cond_id b1)) as [_ [x Hx]]; [by eexists|].
      by rewrite (wf_fresh b1 Hwf) in Hx. }
  split; [exact H|]. split.
  - destruct (last_nodes b1) as [|u us] eqn:El; [done|].
    exists u. apply H. split; [done|]. apply list_elem_of_here.
  - by apply build_tree_stop.
Qed.

(** X11.  Whenever [build] on a new builder returns, the page shows
    either the error box with the message of [build], which starts with
    ["Syntax Error: "] and comes with no graph, or the four metrics of the
    graph returned, the complexity being the number of edges less the
    number of nodes plus two, at least 1.  The test [if not error] never
    holds with a missing graph. *)
Theorem page_display
    (parse : string → outcome (list ast_node)) (code : string)
    (returned : option DiGraph) (error : option string) :
  (build parse init code).2 = Returned (returned, error) →
  (∃ msg, parse code = Raised (SyntaxError msg) ∧
          returned = None ∧ error = Some ("Syntax Error: " +:+ msg) ∧
          page (returned, error) = ErrorBox ("Syntax Error: " +:+ msg)) ∨
  (∃ body g, parse code = Returned body ∧
             returned = Some g ∧ error = None ∧
             page (returned, error) =
               Metrics (number_of_nodes g) (number_of_edges g) (predicates g)
                 (Z.of_nat (number_of_edges g) - Z.of_nat (number_of_nodes g) + 2) ∧
             number_of_nodes g = 2 + made_all body ∧
             (1 ≤ cyclomatic_complexity g)%Z).
Proof.
  unfold build. destruct (parse code) as [body|[msg|cls msg]]; cbn [snd];
    intros H; [|injection H as <- <-; left; by exists msg|done].
  injection H as <- <-. right.
  pose proof (tidy_size _ (tidy_build_tree body)) as Hs.
  pose proof (tidy_edges _ (tidy_build_tree body)) as He.
  rewrite build_tree_counter in Hs, He.
  exists body, (graph (build_tree body init)).
  split; [done|]. split; [done|]. split; [done|]. split; [done|]. split.
  - unfold number_of_nodes. by rewrite Hs.
  - unfold cyclomatic_complexity, number_of_nodes, number_of_edges.
    rewrite Hs. lia.
Qed.

Lemma page_display_witness :
  page (None, Some "Syntax Error: '(' was never closed (<unknown>, line 1)") =
    ErrorBox "Syntax Error: '(' was never closed (<unknown>, line 1)".
Proof.
  destruct (page_display
              (λ _, Raised (SyntaxError "'(' was never closed (<unknown>, line 1)"))
              "x = (1" None
              (Some "Syntax Error: '(' was never closed (<unknown>, line 1)")
              eq_refl) as [(msg & _ & _ & E & H)|(body & g & H1 & _)].
  - congruence.
  - discriminate H1.
Defined.
